(** * device-tracker: the page shell and the map widget

    A shallow embedding of [src/app/components/GoogleMap.tsx] (the components
    [Map], [Marker], [render] and [GoogleMap]) and of the page component
    [Home], with the parts of the browser, of React and of the Google Maps
    library that the components drive:

    - JavaScript numbers are binary64 floats ([PrimFloat.float]); decimal
      literals denote the closest binary64 value, as in JavaScript;
    - an object literal is a value together with the address that gives it
      its identity, which is what React compares in dependency arrays;
    - the browser's geolocation capability is a log of the requests made to
      it plus the number of requests whose callback is still to be delivered:
      [getCurrentPosition] answers a request once, through one of its two
      callbacks;
    - [google.maps.Map] and [google.maps.Marker] instances live in a heap
      and are updated in place by their methods;
    - a React component instance is its hook state, the state update queued
      for its next render, and what its effects remember from the last
      commit (dependency values, the variables captured by a cleanup).

    React is taken as it runs in production under the Next.js app router
    (React 18): an effect runs once per mount and again when a dependency
    has changed, its cleanup runs before it runs again and at unmount, the
    state updates made by one callback are taken up by one render, and a
    state update addressed to an unmounted component is dropped, and an
    error thrown by the render of a component that no error boundary of the
    widget catches makes React unmount the widget.

    The source file binds no identifier [React]: it imports [Wrapper] and
    [Status], and [useEffect], [useRef] and [useState], and the page that
    Next.js builds has no global of that name.  [React.FC] and
    [React.ReactNode] are types, which the compiler erases; the
    [React.Children.map], [React.isValidElement] and [React.cloneElement]
    of the body of [Map] are read when [Map] renders. *)

From Stdlib Require Import ZArith PrimFloat Lia.
From stdpp Require Import base option list strings gmap relations.

Set Warnings "-inexact-float".
Set Default Proof Using "Type".

(** ** JavaScript values *)

Record LatLngLiteral := { lat : float; lng : float }.

(** An object of type [google.maps.LatLngLiteral] held by reference: [oid] is
    the identity of the object, [lit] its contents.  No code of the widget
    writes to such an object after it is built. *)
Record LatLngObj := { oid : nat; lit : LatLngLiteral }.

(** [a || b] on an optional string: [undefined], [null] and the empty string
    are falsy. *)
Definition truthy (s : option string) : bool :=
  match s with
  | Some x => negb (String.eqb x "")
  | None => false
  end.

(** [!x] on a value that is an object or [undefined]. *)
Definition undefined {A : Type} (x : option A) : bool :=
  match x with
  | Some _ => false
  | None => true
  end.

Definition or_else (a : option string) (b : string) : string :=
  match a with
  | Some x => if truthy a then x else b
  | None => b
  end.

(** ** The geolocation capability of the browser *)

Record PositionOptions :=
  { enableHighAccuracy : bool; timeout : Z; maximumAge : Z }.

Record GeolocationCoordinates := { latitude : float; longitude : float }.
Record GeolocationPosition := { coords : GeolocationCoordinates }.
Record GeolocationPositionError := { code : Z; message : string }.

Inductive LogEntry :=
  | LogRequesting
  | LogObtained (location : LatLngObj)
  | LogError (msg : string).

(** [geolocation] tells whether [navigator.geolocation] exists.  [requests]
    records every call of [getCurrentPosition] with its options.
    [outstanding] counts the calls whose callback has not been delivered:
    [getCurrentPosition] answers each call once, through one of its two
    callbacks. *)
Record Browser :=
  { geolocation : bool;
    requests : list PositionOptions;
    outstanding : nat;
    console : list LogEntry;
    nextOid : nat }.

(** ** The Google Maps library *)

Module GM.

Record Icon :=
  { url : string; scaledSize : Z * Z; anchor : Z * Z }.

(** The state of a [google.maps.Map]: what its constructor received in
    [MapOptions], as [setCenter] and [setZoom] have changed it since. *)
Record Map :=
  { center : LatLngLiteral;
    zoom : Z;
    mapTypeControl : bool;
    streetViewControl : bool;
    fullscreenControl : bool }.

(** The state of a [google.maps.Marker]; [map] is the map it is shown on. *)
Record Marker :=
  { position : LatLngLiteral;
    map : option nat;
    title : string;
    icon : Icon }.

(** Script loads requested from the library's loader (one API key each)
    and the instances constructed so far; an instance is named by its
    index. *)
Record Lib :=
  { loads : list string;
    maps : list Map;
    markers : list Marker }.

Definition empty : Lib := {| loads := []; maps := []; markers := [] |}.

Definition new_Map (o : Map) (g : Lib) : nat * Lib :=
  (length (maps g),
   {| loads := loads g; maps := maps g ++ [o]; markers := markers g |}).

Definition new_Marker (o : Marker) (g : Lib) : nat * Lib :=
  (length (markers g),
   {| loads := loads g; maps := maps g; markers := markers g ++ [o] |}).

Definition with_center (c : LatLngLiteral) (m : Map) : Map :=
  {| center := c; zoom := zoom m; mapTypeControl := mapTypeControl m;
     streetViewControl := streetViewControl m;
     fullscreenControl := fullscreenControl m |}.

Definition with_zoom (z : Z) (m : Map) : Map :=
  {| center := center m; zoom := z; mapTypeControl := mapTypeControl m;
     streetViewControl := streetViewControl m;
     fullscreenControl := fullscreenControl m |}.

Definition with_position (p : LatLngLiteral) (k : Marker) : Marker :=
  {| position := p; map := map k; title := title k; icon := icon k |}.

Definition with_map (m : option nat) (k : Marker) : Marker :=
  {| position := position k; map := m; title := title k; icon := icon k |}.

Definition on_map (f : Map -> Map) (m : nat) (g : Lib) : Lib :=
  {| loads := loads g; maps := alter f m (maps g); markers := markers g |}.

Definition on_marker (f : Marker -> Marker) (k : nat) (g : Lib) : Lib :=
  {| loads := loads g; maps := maps g; markers := alter f k (markers g) |}.

Definition setCenter (m : nat) (c : LatLngLiteral) : Lib -> Lib :=
  on_map (with_center c) m.
Definition setZoom (m : nat) (z : Z) : Lib -> Lib :=
  on_map (with_zoom z) m.
Definition setPosition (k : nat) (p : LatLngLiteral) : Lib -> Lib :=
  on_marker (with_position p) k.
Definition setMap (k : nat) (m : option nat) : Lib -> Lib :=
  on_marker (with_map m) k.

Definition load (apiKey : string) (g : Lib) : Lib :=
  {| loads := loads g ++ [apiKey]; maps := maps g; markers := markers g |}.

End GM.

(** [Status] of [@googlemaps/react-wrapper]. *)
Inductive Status := LOADING | FAILURE | SUCCESS.

(** What [useEffect] does with a dependency array: the effect runs on mount
    and whenever a dependency differs from its value at the last render. *)
Definition changed {D : Type} `{EqDecision D} (before now : D) : bool :=
  bool_decide (before ≠ now).

(** ** The identifiers of the module *)

(** What the evaluation of an expression can throw. *)
Inductive Thrown := ReferenceError (name : string).

(** The identifiers that [GoogleMap.tsx] binds at its top level: those of
    its two [import] declarations and those that it declares. *)
Definition module_scope : list string :=
  ["Wrapper"; "Status"; "useEffect"; "useRef"; "useState";
   "Map"; "Marker"; "render"; "GoogleMap"].

(** The globals of the page that the file reads.  The page has no global
    [React]: Next.js bundles React as a module, which a file reaches
    through an [import]. *)
Definition global_scope : list string :=
  ["window"; "google"; "navigator"; "console"].

(** The evaluation of an identifier that no function binds. *)
Definition resolve (name : string) : Thrown + unit :=
  if bool_decide (name ∈ module_scope ++ global_scope) then inr ()
  else inl (ReferenceError name).

(** ** The component [Map] *)

Module Map.

Record Props := { center : LatLngObj; zoom : Z }.

(** [map] is the state variable as the last render saw it, [queued] the
    argument of a [setMap] call that the next render will take up,
    [ref_current] whether [ref.current] holds the [div], [props] the props
    of the last render. *)
Record Inst :=
  { ref_current : bool;
    map : option nat;
    queued : option nat;
    props : Props }.

(** What [useState] returns for [map] in the next render. *)
Definition state (i : Inst) : option nat :=
  match queued i with
  | Some m => Some m
  | None => map i
  end.

(** The [return] of the function body, in a render in which the state
    variable is [map]: the fragment with the [div] and the children, each
    child cloned with [map] as an extra prop.  The result is the [map] that
    the children are given.  The expression reads [React] before it calls
    [Children.map]. *)
Definition render (map : option nat) : Thrown + option nat :=
  match resolve "React" with
  | inl e => inl e
  | inr _ => inr map
  end.

(** The dependency arrays [[ref, map, center, zoom]] and
    [[map, center, zoom]]; [ref] is the same object in every render. *)
Definition deps_create (p : Props) (map : option nat)
    : option nat * nat * Z :=
  (map, oid (center p), zoom p).

Definition deps_sync (p : Props) (map : option nat) : option nat * nat * Z :=
  (map, oid (center p), zoom p).

(** First effect: returns the argument of [setMap] when it calls it. *)
Definition effect_create (p : Props) (ref_current : bool)
    (map : option nat) (g : GM.Lib) : option nat * GM.Lib :=
  if ref_current && undefined map then
    let '(m, g') :=
      GM.new_Map
        {| GM.center := lit (center p);
           GM.zoom := zoom p;
           GM.mapTypeControl := false;
           GM.streetViewControl := false;
           GM.fullscreenControl := false |} g in
    (Some m, g')
  else (None, g).

(** Second effect. *)
Definition effect_sync (p : Props) (map : option nat) (g : GM.Lib)
    : GM.Lib :=
  match map with
  | Some m => GM.setZoom m (zoom p) (GM.setCenter m (lit (center p)) g)
  | None => g
  end.

(** The commit of a render that saw the props [p] and the state [map]:
    [run1] and [run2] tell which of the two effects run. *)
Definition commit (p : Props) (ref_current : bool) (map : option nat)
    (run1 run2 : bool) (g : GM.Lib) : Inst * GM.Lib :=
  let '(q, g1) :=
    if run1 then effect_create p ref_current map g else (None, g) in
  let g2 := if run2 then effect_sync p map g1 else g1 in
  ({| ref_current := ref_current; map := map; queued := q; props := p |},
   g2).

(** First commit: [map] is undefined, the [div] is attached to [ref], and
    both effects run. *)
Definition mount (p : Props) (g : GM.Lib) : Inst * GM.Lib :=
  commit p true None true true g.

(** A later commit: an effect runs again when one of its dependencies has
    changed since the last render. *)
Definition update (p : Props) (i : Inst) (g : GM.Lib) : Inst * GM.Lib :=
  let map' := state i in
  commit p (ref_current i) map'
    (changed (deps_create (props i) (map i)) (deps_create p map'))
    (changed (deps_sync (props i) (map i)) (deps_sync p map'))
    g.

End Map.

(** ** The component [Marker] *)

Module Marker.

Record Props :=
  { position : LatLngObj; map : option nat; title : option string }.

(** [captured] is the value of [marker] in the closure of the cleanup
    function that the first effect returned when it last ran. *)
Record Inst :=
  { marker : option nat;
    queued : option nat;
    props : Props;
    captured : option nat }.

Definition markerIcon : GM.Icon :=
  {| GM.url := "data:image/svg+xml,%3Csvg xmlns='http://www.w3.org/2000/svg' width='24' height='24' viewBox='0 0 24 24' fill='%234F46E5'%3E%3Cpath d='M12 2C8.13 2 5 5.13 5 9c0 5.25 7 13 7 13s7-7.75 7-13c0-3.87-3.13-7-7-7zm0 9.5c-1.38 0-2.5-1.12-2.5-2.5s1.12-2.5 2.5-2.5 2.5 1.12 2.5 2.5-1.12 2.5-2.5 2.5z'/%3E%3C/svg%3E";
     GM.scaledSize := (32, 32)%Z;
     GM.anchor := (16, 32)%Z |}.

(** What [useState] returns for [marker] in the next render.  The function
    body of [Marker] returns [null]. *)
Definition state (i : Inst) : option nat :=
  match queued i with
  | Some k => Some k
  | None => marker i
  end.

(** [[marker, map, position, title]] and [[marker, position]]. *)
Definition deps_create (p : Props) (marker : option nat)
    : option nat * option nat * nat * option string :=
  (marker, map p, oid (position p), title p).

Definition deps_sync (p : Props) (marker : option nat) : option nat * nat :=
  (marker, oid (position p)).

(** First effect: returns the argument of [setMarker] when it calls it. *)
Definition effect_create (p : Props) (marker : option nat) (g : GM.Lib)
    : option nat * GM.Lib :=
  match marker, map p with
  | None, Some m =>
      let '(newMarker, g') :=
        GM.new_Marker
          {| GM.position := lit (position p);
             GM.map := Some m;
             GM.title := or_else (title p) "Your Location";
             GM.icon := markerIcon |} g in
      (Some newMarker, g')
  | _, _ => (None, g)
  end.

(** The cleanup function returned by the first effect, with the [marker]
    it closed over. *)
Definition cleanup (captured : option nat) (g : GM.Lib) : GM.Lib :=
  match captured with
  | Some k => GM.setMap k None g
  | None => g
  end.

(** Second effect. *)
Definition effect_sync (p : Props) (marker : option nat) (g : GM.Lib)
    : GM.Lib :=
  match marker with
  | Some k => GM.setPosition k (lit (position p)) g
  | None => g
  end.

(** The commit of a render that saw the props [p] and the state [marker]:
    [run1] and [run2] tell which of the two effects run.  The cleanup of an
    effect that runs again comes first, with what it captured; then the
    effects run in the order of their declaration, and the first one
    returns a new cleanup, which captures the [marker] of this render. *)
Definition commit (p : Props) (marker : option nat) (run1 run2 : bool)
    (captured : option nat) (g : GM.Lib) : Inst * GM.Lib :=
  let g0 := if run1 then cleanup captured g else g in
  let '(q, g1) := if run1 then effect_create p marker g0 else (None, g0) in
  let g2 := if run2 then effect_sync p marker g1 else g1 in
  ({| marker := marker; queued := q; props := p;
      captured := if run1 then marker else captured |}, g2).

(** First commit: [marker] is undefined, both effects run, and there is no
    cleanup yet. *)
Definition mount (p : Props) (g : GM.Lib) : Inst * GM.Lib :=
  commit p None true true None g.

(** A later commit: an effect runs again when one of its dependencies has
    changed since the last render. *)
Definition update (p : Props) (i : Inst) (g : GM.Lib) : Inst * GM.Lib :=
  let marker' := state i in
  commit p marker'
    (changed (deps_create (props i) (marker i)) (deps_create p marker'))
    (changed (deps_sync (props i) (marker i)) (deps_sync p marker'))
    (captured i) g.

(** Unmounting runs the cleanup of the last run of the first effect; the
    instance and the component's state are dropped after it. *)
Definition unmount (i : Inst) (g : GM.Lib) : GM.Lib :=
  cleanup (captured i) g.

End Marker.

(** ** The element [<Map center zoom><Marker position title /></Map>] *)

Module Tree.

Record Props :=
  { map_props : Map.Props;
    position : LatLngObj;
    title : option string }.

Record Inst := { mapI : Map.Inst; markerI : Marker.Inst }.

(** [Map] clones its child with its own state variable [map] as an extra
    prop. *)
Definition marker_props (p : Props) (map : option nat) : Marker.Props :=
  {| Marker.position := position p;
     Marker.map := map;
     Marker.title := title p |}.

(** The first render of the two components and its commit.  [Map]
    renders first, with its state variable undefined; when its render
    throws, no component of the tree is committed and no effect runs.
    Otherwise the effects of the child run before those of its parent. *)
Definition mount (p : Props) (g : GM.Lib) : Thrown + Inst * GM.Lib :=
  match Map.render None with
  | inl e => inl e
  | inr map' =>
      let '(k, g1) := Marker.mount (marker_props p map') g in
      let '(m, g2) := Map.mount (map_props p) g1 in
      inr ({| mapI := m; markerI := k |}, g2)
  end.

(** One more render of the two components followed by its commit. *)
Definition update (p : Props) (t : Inst) (g : GM.Lib)
    : Thrown + Inst * GM.Lib :=
  match Map.render (Map.state (mapI t)) with
  | inl e => inl e
  | inr map' =>
      let '(k, g1) := Marker.update (marker_props p map') (markerI t) g in
      let '(m, g2) := Map.update (map_props p) (mapI t) g1 in
      inr ({| mapI := m; markerI := k |}, g2)
  end.

(** [Map] registers no cleanup. *)
Definition unmount (t : Inst) (g : GM.Lib) : GM.Lib :=
  Marker.unmount (markerI t) g.

End Tree.

(** ** The component [GoogleMap] *)

Record GoogleMapProps := { apiKey : string; className : string }.

Record GeoState :=
  { userLocation : option LatLngObj;
    locationError : option string;
    isLoadingLocation : bool }.

Definition initialState : GeoState :=
  {| userLocation := None; locationError := None; isLoadingLocation := true |}.

(** What [GoogleMap] returns once the location has settled: the warning
    banner when [locationError] is truthy, and the [Wrapper] element around
    the map and its marker. *)
Record View :=
  { banner : option string;
    wrapperKey : string;
    tree : Tree.Props }.

Inductive Element :=
  | LoadingPlaceholder (className : string)
  | MapView (className : string) (v : View).

Definition defaultCenter : LatLngLiteral :=
  {| lat := 37.7749; lng := -122.4194 |}.

(** [fresh] is the address of the object that the literal [defaultCenter]
    builds in this call. *)
Definition GoogleMap (p : GoogleMapProps) (fresh : nat) (s : GeoState)
    : Element :=
  let defaultCenter := {| oid := fresh; lit := defaultCenter |} in
  if isLoadingLocation s then LoadingPlaceholder (className p)
  else
    let center := default defaultCenter (userLocation s) in
    let zoom := if userLocation s is Some _ then 15%Z else 10%Z in
    MapView (className p)
      {| banner := if truthy (locationError s) then locationError s else None;
         wrapperKey := apiKey p;
         tree :=
           {| Tree.map_props := {| Map.center := center; Map.zoom := zoom |};
              Tree.position := center;
              Tree.title :=
                Some (if userLocation s is Some _ then "Your Current Location"
                      else "Default Location") |} |}.

Inductive Panel := MapLoadingPanel | MapFailurePanel.

(** The [render] prop given to [Wrapper]. *)
Definition render (status : Status) : option Panel :=
  match status with
  | LOADING => Some MapLoadingPanel
  | FAILURE => Some MapFailurePanel
  | SUCCESS => None
  end.

(** ** One mounted widget and its surroundings *)

(** [alive] is false once React has unmounted the component.  [scheduled]
    tells that a state update asks for a new render.  [wrapper] is the
    loader status held by the [Wrapper] element when it is mounted, and
    [subtree] the instances of [Map] and [Marker] below it. *)
Record Widget :=
  { alive : bool;
    wprops : GoogleMapProps;
    hooks : GeoState;
    scheduled : bool;
    rendered : Element;
    wrapper : option Status;
    subtree : option Tree.Inst }.

Record World := { browser : Browser; gmaps : GM.Lib; widget : Widget }.

Definition on_browser (f : Browser -> Browser) (w : World) : World :=
  {| browser := f (browser w); gmaps := gmaps w; widget := widget w |}.

Definition on_widget (f : Widget -> Widget) (w : World) : World :=
  {| browser := browser w; gmaps := gmaps w; widget := f (widget w) |}.

Definition console_log (e : LogEntry) : World -> World :=
  on_browser (fun b =>
    {| geolocation := geolocation b; requests := requests b;
       outstanding := outstanding b; console := console b ++ [e];
       nextOid := nextOid b |}).

(** A new object: its address, and the world where that address is taken. *)
Definition alloc (w : World) : nat * World :=
  (nextOid (browser w),
   on_browser (fun b =>
     {| geolocation := geolocation b; requests := requests b;
        outstanding := outstanding b; console := console b;
        nextOid := S (nextOid b) |}) w).

(** [navigator.geolocation.getCurrentPosition(success, error, o)]: the two
    callbacks are those of the one widget of the world. *)
Definition getCurrentPosition (o : PositionOptions) : World -> World :=
  on_browser (fun b =>
    {| geolocation := geolocation b; requests := requests b ++ [o];
       outstanding := S (outstanding b); console := console b;
       nextOid := nextOid b |}).

(** The browser takes one request off its list to answer it. *)
Definition answer : World -> World :=
  on_browser (fun b =>
    {| geolocation := geolocation b; requests := requests b;
       outstanding := pred (outstanding b); console := console b;
       nextOid := nextOid b |}).

(** The three state setters.  React drops a state update addressed to a
    component that it has unmounted; otherwise the update is applied and a
    render is scheduled.  All updates made by one callback are taken up by
    the same render (React 18, on which the [use client] components of the
    Next.js app router run). *)
Definition set_state (f : GeoState -> GeoState) : World -> World :=
  on_widget (fun d =>
    if alive d then
      {| alive := alive d; wprops := wprops d; hooks := f (hooks d);
         scheduled := true; rendered := rendered d; wrapper := wrapper d;
         subtree := subtree d |}
    else d).

Definition setUserLocation (v : option LatLngObj) : World -> World :=
  set_state (fun s =>
    {| userLocation := v; locationError := locationError s;
       isLoadingLocation := isLoadingLocation s |}).

Definition setLocationError (v : option string) : World -> World :=
  set_state (fun s =>
    {| userLocation := userLocation s; locationError := v;
       isLoadingLocation := isLoadingLocation s |}).

Definition setIsLoadingLocation (v : bool) : World -> World :=
  set_state (fun s =>
    {| userLocation := userLocation s; locationError := locationError s;
       isLoadingLocation := v |}).

Definition options : PositionOptions :=
  {| enableHighAccuracy := true; timeout := 10000; maximumAge := 60000 |}.

(** The success callback given to [getCurrentPosition]. *)
Definition onSuccess (position : GeolocationPosition) (w : World) : World :=
  let '(a, w) := alloc w in
  let location :=
    {| oid := a;
       lit := {| lat := latitude (coords position);
                 lng := longitude (coords position) |} |} in
  let w := console_log (LogObtained location) w in
  let w := setUserLocation (Some location) w in
  let w := setIsLoadingLocation false w in
  w.

(** The error callback given to [getCurrentPosition]. *)
Definition onError (error : GeolocationPositionError) (w : World) : World :=
  let w := console_log (LogError (message error)) w in
  let w := setLocationError (Some (message error)) w in
  let w := setIsLoadingLocation false w in
  w.

(** The effect of [GoogleMap], which has an empty dependency array. *)
Definition locationEffect (w : World) : World :=
  let w := console_log LogRequesting w in
  if negb (geolocation (browser w)) then
    let w :=
      setLocationError (Some "Geolocation is not supported by this browser") w
    in
    let w := setIsLoadingLocation false w in
    w
  else getCurrentPosition options w.

Definition with_children (el : Element) (s : option Status)
    (t : option Tree.Inst) (d : Widget) : Widget :=
  {| alive := alive d; wprops := wprops d; hooks := hooks d;
     scheduled := scheduled d; rendered := el; wrapper := s; subtree := t |}.

Definition taken_up (d : Widget) : Widget :=
  {| alive := alive d; wprops := wprops d; hooks := hooks d;
     scheduled := false; rendered := rendered d; wrapper := wrapper d;
     subtree := subtree d |}.

(** React unmounts the widget: cleanups run, and the state of the
    components is dropped.  The hook values are kept in the model to tell
    what a late callback does to them. *)
Definition unmount (w : World) : World :=
  let d := widget w in
  {| browser := browser w;
     gmaps := match subtree d with
              | Some t => Tree.unmount t (gmaps w)
              | None => gmaps w
              end;
     widget :=
       {| alive := false; wprops := wprops d; hooks := hooks d;
          scheduled := false; rendered := rendered d;
          wrapper := None; subtree := None |} |}.

(** A render below [GoogleMap] has thrown.  Neither the file nor [Wrapper]
    has an error boundary: React gives the render up and unmounts the
    widget. *)
Definition uncaught (e : Thrown) (w : World) : World := unmount w.

(** React brings what is mounted below [GoogleMap] in line with the element
    [el] that a render returned.  Without a [Wrapper] in [el], what was
    mounted below is unmounted.  A [Wrapper] that appears starts the load of
    the library's script with its API key and holds [LOADING]; a [Wrapper]
    that holds [SUCCESS] renders its children, which are rendered again
    with their new props. *)
Definition reconcile (el : Element) (w : World) : World :=
  let d := widget w in
  match el with
  | LoadingPlaceholder _ =>
      {| browser := browser w;
         gmaps := match subtree d with
                  | Some t => Tree.unmount t (gmaps w)
                  | None => gmaps w
                  end;
         widget := with_children el None None d |}
  | MapView _ v =>
      match wrapper d, subtree d with
      | None, _ =>
          {| browser := browser w;
             gmaps := GM.load (wrapperKey v) (gmaps w);
             widget := with_children el (Some LOADING) None d |}
      | Some SUCCESS, Some t =>
          match Tree.update (tree v) t (gmaps w) with
          | inr (t', g) =>
              {| browser := browser w; gmaps := g;
                 widget := with_children el (Some SUCCESS) (Some t') d |}
          | inl e =>
              uncaught e
                (on_widget (with_children el (Some SUCCESS) (Some t)) w)
          end
      | Some SUCCESS, None =>
          match Tree.mount (tree v) (gmaps w) with
          | inr (t', g) =>
              {| browser := browser w; gmaps := g;
                 widget := with_children el (Some SUCCESS) (Some t') d |}
          | inl e =>
              uncaught e (on_widget (with_children el (Some SUCCESS) None) w)
          end
      | Some s, _ =>
          {| browser := browser w; gmaps := gmaps w;
             widget := with_children el (Some s) None d |}
      end
  end.

(** A render of [GoogleMap], which takes up the state updates made so far,
    and its commit. *)
Definition rerender (w : World) : World :=
  let '(a, w) := alloc w in
  let w := on_widget taken_up w in
  reconcile (GoogleMap (wprops (widget w)) a (hooks (widget w))) w.

(** React renders the component again when a state update has asked for
    it. *)
Definition flush (w : World) : World :=
  if scheduled (widget w) then rerender w else w.

(** The widget is mounted: first render with the initial state, then its
    effect, then the render that the effect may have asked for. *)
Definition GoogleMap_mount (p : GoogleMapProps) (b : Browser) (g : GM.Lib)
    : World :=
  let w :=
    {| browser := b; gmaps := g;
       widget :=
         {| alive := true; wprops := p; hooks := initialState;
            scheduled := false;
            rendered := LoadingPlaceholder (className p);
            wrapper := None; subtree := None |} |} in
  let w := rerender w in
  let w := locationEffect w in
  flush w.

(** The browser answers a request through one of the callbacks. *)
Definition deliver (callback : World -> World) (w : World) : World :=
  flush (callback (answer w)).

(** The loader of [Wrapper] settles.  On success [Wrapper] holds [SUCCESS]
    and renders its children, [Map] and [Marker], with the props of the last
    render of [GoogleMap]. *)
Definition loaded (ok : bool) (w : World) : World :=
  let d := widget w in
  match wrapper d, rendered d with
  | Some LOADING, MapView _ v =>
      if ok then
        match Tree.mount (tree v) (gmaps w) with
        | inr (t, g) =>
            {| browser := browser w; gmaps := g;
               widget :=
                 with_children (rendered d) (Some SUCCESS) (Some t) d |}
        | inl e =>
            uncaught e
              (on_widget (with_children (rendered d) (Some SUCCESS) None) w)
        end
      else
        on_widget (with_children (rendered d) (Some FAILURE) None) w
  | _, _ => w
  end.

(** React takes up the state updates queued by [Map] and [Marker]: one more
    render of the two with the props they have. *)
Definition commit (w : World) : World :=
  let d := widget w in
  match subtree d, rendered d with
  | Some t, MapView _ v =>
      match Tree.update (tree v) t (gmaps w) with
      | inr (t', g) =>
          {| browser := browser w; gmaps := g;
             widget :=
               {| alive := alive d; wprops := wprops d; hooks := hooks d;
                  scheduled := scheduled d; rendered := rendered d;
                  wrapper := wrapper d; subtree := Some t' |} |}
      | inl e => uncaught e w
      end
  | _, _ => w
  end.

(** What can happen to a mounted widget. *)
Inductive step : World -> World -> Prop :=
  | step_position (position : GeolocationPosition) w :
      0 < outstanding (browser w) ->
      step w (deliver (onSuccess position) w)
  | step_error (error : GeolocationPositionError) w :
      0 < outstanding (browser w) ->
      step w (deliver (onError error) w)
  | step_loaded (ok : bool) w :
      wrapper (widget w) = Some LOADING ->
      step w (loaded ok w)
  | step_commit w :
      alive (widget w) = true ->
      step w (commit w)
  | step_unmount w :
      alive (widget w) = true ->
      step w (unmount w).

(** A browser in which nothing has run yet. *)
Definition fresh_browser (geolocation : bool) : Browser :=
  {| geolocation := geolocation; requests := []; outstanding := 0;
     console := []; nextOid := 0 |}.

Definition start (p : GoogleMapProps) (geolocation : bool) : World :=
  GoogleMap_mount p (fresh_browser geolocation) GM.empty.

Definition reachable (p : GoogleMapProps) (geolocation : bool)
    : World -> Prop :=
  rtc step (start p geolocation).

(** ** The page component [Home] *)

(** The part of the page that depends on the configuration; the rest of the
    markup is constant. *)
Inductive MapSection :=
  | MapWidget (p : GoogleMapProps)
  | ApiKeyRequiredPanel.

Definition keyName : string := "NEXT_PUBLIC_GOOGLE_MAPS_API_KEY".

Definition Home (env : gmap string string) : MapSection :=
  let googleMapsApiKey := or_else (env !! keyName) "" in
  if truthy (Some googleMapsApiKey) then
    MapWidget {| apiKey := googleMapsApiKey; className := "" |}
  else ApiKeyRequiredPanel.

(** The page in the browser: with the placeholder panel there is no widget,
    only the browser and the (unloaded) library. *)
Inductive Page :=
  | PlaceholderPage (b : Browser) (g : GM.Lib)
  | WidgetPage (w : World).

Definition boot (env : gmap string string) (geolocation : bool) : Page :=
  match Home env with
  | MapWidget p => WidgetPage (start p geolocation)
  | ApiKeyRequiredPanel =>
      PlaceholderPage (fresh_browser geolocation) GM.empty
  end.

Inductive page_step : Page -> Page -> Prop :=
  | page_widget_step w w' :
      step w w' -> page_step (WidgetPage w) (WidgetPage w').

(** ** Vocabulary of the properties *)

(** The three conditions of the geolocation state. *)
Definition loading (s : GeoState) : Prop := isLoadingLocation s = true.
Definition resolved (s : GeoState) : Prop := is_Some (userLocation s).
Definition failed (s : GeoState) : Prop := is_Some (locationError s).

Definition exactly_one (s : GeoState) : Prop :=
  (loading s /\ ~ resolved s /\ ~ failed s)
  \/ (~ loading s /\ resolved s /\ ~ failed s)
  \/ (~ loading s /\ ~ resolved s /\ failed s).

(** What holds of the browser and of the hooks whatever has happened: the
    request log, and the shape of the state. *)
Record GeoInv (geo : bool) (w : World) : Prop :=
  { gi_geolocation : geolocation (browser w) = geo;
    gi_requests : requests (browser w) = if geo then [options] else [];
    gi_scheduled : scheduled (widget w) = false;
    gi_outstanding : outstanding (browser w) <= 1;
    gi_pending :
      0 < outstanding (browser w) -> hooks (widget w) = initialState;
    gi_shape :
      hooks (widget w) = initialState
      \/ (isLoadingLocation (hooks (widget w)) = false
          /\ ((is_Some (userLocation (hooks (widget w)))
               /\ locationError (hooks (widget w)) = None)
              \/ (userLocation (hooks (widget w)) = None
                  /\ is_Some (locationError (hooks (widget w)))))) }.

(** A run of [Marker] by itself: it is mounted with the props [p0] in a
    library that holds [g0], and rendered again once for each element of
    [ps], with these props. *)
Definition marker_run (g0 : GM.Lib) (p0 : Marker.Props)
    (ps : list Marker.Props) : Marker.Inst * GM.Lib :=
  foldl (fun ig p => Marker.update p ig.1 ig.2) (Marker.mount p0 g0) ps.

(** The props of the last render of a run. *)
Definition last_props (p0 : Marker.Props) (ps : list Marker.Props)
    : Marker.Props :=
  default p0 (last ps).

(** The props of the first render that is given a map. *)
Fixpoint first_with_map (ps : list Marker.Props) : option Marker.Props :=
  match ps with
  | [] => None
  | p :: ps => if Marker.map p is Some _ then Some p else first_with_map ps
  end.

(** The shape of [Marker] and of the library after a mount on [g0] and any
    number of renders: the cleanup holds the marker that the last render
    saw, no map has been touched, and at most one marker has been added to
    those of [g0], none as long as no render was given a map. *)
Record MarkerInv (g0 : GM.Lib) (i : Marker.Inst) (g : GM.Lib) : Prop :=
  { mi_captured : Marker.captured i = Marker.marker i;
    mi_maps : GM.maps g = GM.maps g0;
    mi_loads : GM.loads g = GM.loads g0;
    mi_marker :
      (Marker.marker i = None /\ Marker.queued i = None
       /\ GM.markers g = GM.markers g0
       /\ Marker.map (Marker.props i) = None)
      \/ (exists ko,
            GM.markers g = GM.markers g0 ++ [ko]
            /\ ((Marker.marker i = None
                 /\ Marker.queued i = Some (length (GM.markers g0)))
                \/ (Marker.marker i = Some (length (GM.markers g0))
                    /\ Marker.queued i = None))) }.

(** The marker that [Marker] has added to the library [g0] is on no map. *)
Definition detached (g0 g : GM.Lib) : Prop :=
  forall ko, GM.markers g !! length (GM.markers g0) = Some ko ->
    GM.map ko = None.

(** The configurations of a widget: nothing is mounted below [Wrapper] and
    the library holds no instance; the widget is still loading, or it has
    settled and the library is loading or has failed, or it is unmounted
    after it had settled. *)
Definition AppShape (w : World) : Prop :=
  let d := widget w in
  subtree d = None
  /\ GM.maps (gmaps w) = [] /\ GM.markers (gmaps w) = []
  /\ ((isLoadingLocation (hooks d) = true /\ wrapper d = None)
      \/ (exists cn v,
            rendered d = MapView cn v
            /\ ((alive d = true
                 /\ (wrapper d = Some LOADING \/ wrapper d = Some FAILURE))
                \/ (alive d = false /\ wrapper d = None)))).

Record AppInv (w : World) : Prop :=
  { ai_rendered :
      exists a,
        rendered (widget w)
          = GoogleMap (wprops (widget w)) a (hooks (widget w));
    ai_shape : AppShape w }.

(** Inputs of the examples. *)
Definition position4074 : GeolocationPosition :=
  {| coords := {| latitude := 40.0; longitude := -74.0 |} |}.

Definition some_props : GoogleMapProps :=
  {| apiKey := "key"; className := "" |}.

Definition denied : GeolocationPositionError :=
  {| code := 1; message := "User denied Geolocation" |}.

(** The props of a [Marker] that is given the map 0 and the position [c],
    with the title that [GoogleMap] gives for a position of the user. *)
Definition marker_at (c : LatLngObj) : Marker.Props :=
  {| Marker.position := c;
     Marker.map := Some 0;
     Marker.title := Some "Your Current Location" |}.

Definition here : LatLngObj :=
  {| oid := 1; lit := {| lat := 40.0; lng := -74.0 |} |}.

(** The coordinates of [here] in another object. *)
Definition here_again : LatLngObj :=
  {| oid := 2; lit := {| lat := 40.0; lng := -74.0 |} |}.

Definition there : LatLngObj :=
  {| oid := 3; lit := {| lat := 41.5; lng := -73.0 |} |}.

(** ** What the widget shows *)

(** What is on the surface of the widget: the placeholder of [GoogleMap]
    while the location loads; then what [Wrapper] returns, which is what its
    [render] prop returns for its status until the library is loaded, and
    its children, the map, from then on.  [Blank] is the [null] of the
    [default] branch of [render], a [Wrapper] that is not there, and what
    an unmounted widget leaves. *)
Inductive Surface :=
  | LocationSpinner
  | WrapperPanel (panel : Panel)
  | MapSurface
  | Blank.

Definition shown (d : Widget) : Surface :=
  if alive d then
    match rendered d with
    | LoadingPlaceholder _ => LocationSpinner
    | MapView _ _ =>
        match wrapper d with
        | Some SUCCESS => MapSurface
        | Some status =>
            match render status with
            | Some panel => WrapperPanel panel
            | None => Blank
            end
        | None => Blank
        end
    end
  else Blank.

(** ** Further vocabulary of the properties *)

(** The script loads asked of the library, against the geolocation state:
    none while the location loads, one with the API key of the widget
    after. *)
Record LoadInv (p : GoogleMapProps) (w : World) : Prop :=
  { li_props : wprops (widget w) = p;
    li_loads :
      GM.loads (gmaps w) =
        if isLoadingLocation (hooks (widget w)) then [] else [apiKey p] }.

(** The states that follow a failed load of the library. *)
Definition FailedShape (w : World) : Prop :=
  GM.maps (gmaps w) = [] /\ GM.markers (gmaps w) = []
  /\ subtree (widget w) = None
  /\ (exists cn v, rendered (widget w) = MapView cn v)
  /\ ((alive (widget w) = true /\ wrapper (widget w) = Some FAILURE)
      \/ (alive (widget w) = false /\ wrapper (widget w) = None)).

(** * Properties *)

Arguments Tree.update : simpl never.
Arguments Tree.mount : simpl never.
Arguments Tree.unmount : simpl never.
Arguments changed : simpl never.
Arguments Map.commit : simpl never.
Arguments Marker.commit : simpl never.
Arguments Map.update : simpl never.
Arguments Marker.update : simpl never.
Arguments Marker.markerIcon : simpl never.
Arguments GoogleMap : simpl never.
Arguments reconcile : simpl never.
Arguments rerender : simpl never.

(** ** The render of [Map] *)

Lemma Map_render_throws map : Map.render map = inl (ReferenceError "React").
Proof. reflexivity. Qed.

Lemma Tree_mount_throws p g : Tree.mount p g = inl (ReferenceError "React").
Proof. unfold Tree.mount. by rewrite Map_render_throws. Qed.

Lemma Tree_update_throws p t g :
  Tree.update p t g = inl (ReferenceError "React").
Proof. unfold Tree.update. by rewrite Map_render_throws. Qed.

(** ** What the events leave alone *)

Lemma reconcile_frame el w :
  browser (reconcile el w) = browser w
  /\ wprops (widget (reconcile el w)) = wprops (widget w)
  /\ hooks (widget (reconcile el w)) = hooks (widget w)
  /\ rendered (widget (reconcile el w)) = el
  /\ (scheduled (widget w) = false ->
      scheduled (widget (reconcile el w)) = false)
  /\ (wrapper (widget w) ≠ Some SUCCESS ->
      alive (widget (reconcile el w)) = alive (widget w)).
Proof.
  unfold reconcile. destruct el as [cn | cn v]; [done |].
  rewrite ?Tree_update_throws, ?Tree_mount_throws.
  destruct (wrapper (widget w)) as [[| |] |], (subtree (widget w));
    rewrite ?Tree_update_throws, ?Tree_mount_throws; done.
Qed.

Lemma rerender_frame w :
  geolocation (browser (rerender w)) = geolocation (browser w)
  /\ requests (browser (rerender w)) = requests (browser w)
  /\ outstanding (browser (rerender w)) = outstanding (browser w)
  /\ (wrapper (widget w) ≠ Some SUCCESS ->
      alive (widget (rerender w)) = alive (widget w))
  /\ wprops (widget (rerender w)) = wprops (widget w)
  /\ hooks (widget (rerender w)) = hooks (widget w)
  /\ scheduled (widget (rerender w)) = false
  /\ rendered (widget (rerender w))
       = GoogleMap (wprops (widget w)) (nextOid (browser w))
           (hooks (widget w)).
Proof.
  unfold rerender, alloc.
  match goal with |- context [reconcile ?el ?w'] =>
    destruct (reconcile_frame el w') as (Hb & Hp & Hh & Hr & Hs & Ha) end.
  rewrite Hb, Hp, Hh, Hr, Hs by done. split_and!; try done.
Qed.

Lemma loaded_frame ok w :
  browser (loaded ok w) = browser w
  /\ wprops (widget (loaded ok w)) = wprops (widget w)
  /\ hooks (widget (loaded ok w)) = hooks (widget w)
  /\ rendered (widget (loaded ok w)) = rendered (widget w)
  /\ (scheduled (widget w) = false ->
      scheduled (widget (loaded ok w)) = false).
Proof.
  unfold loaded.
  destruct (wrapper (widget w)) as [[| |] |],
    (rendered (widget w)) eqn:E, ok;
    rewrite <- ?E, ?Tree_mount_throws; done.
Qed.

Lemma commit_frame w :
  browser (commit w) = browser w
  /\ wprops (widget (commit w)) = wprops (widget w)
  /\ hooks (widget (commit w)) = hooks (widget w)
  /\ rendered (widget (commit w)) = rendered (widget w)
  /\ (scheduled (widget w) = false ->
      scheduled (widget (commit w)) = false)
  /\ (subtree (widget w) = None -> commit w = w).
Proof.
  unfold commit.
  destruct (subtree (widget w)), (rendered (widget w)) eqn:E;
    rewrite <- ?E, ?Tree_update_throws; done.
Qed.

(** A callback that finds its widget unmounted changes neither the widget
    nor the library. *)
Lemma onSuccess_dead position w :
  alive (widget w) = false ->
  scheduled (widget w) = false ->
  widget (deliver (onSuccess position) w) = widget w
  /\ gmaps (deliver (onSuccess position) w) = gmaps w.
Proof.
  intros Ha Hs. destruct w as [b g d].
  unfold deliver, flush, onSuccess, setUserLocation, setIsLoadingLocation,
    set_state, console_log, answer, alloc, on_widget, on_browser.
  simpl in *. rewrite Ha. simpl. rewrite Ha, Hs. done.
Qed.

Lemma onError_dead error w :
  alive (widget w) = false ->
  scheduled (widget w) = false ->
  widget (deliver (onError error) w) = widget w
  /\ gmaps (deliver (onError error) w) = gmaps w.
Proof.
  intros Ha Hs. destruct w as [b g d].
  unfold deliver, flush, onError, setLocationError, setIsLoadingLocation,
    set_state, console_log, answer, alloc, on_widget, on_browser.
  simpl in *. rewrite Ha. simpl. rewrite Ha, Hs. done.
Qed.

Lemma onSuccess_alive position w :
  alive (widget w) = true ->
  deliver (onSuccess position) w =
    rerender
      {| browser :=
           {| geolocation := geolocation (browser w);
              requests := requests (browser w);
              outstanding := pred (outstanding (browser w));
              console :=
                console (browser w)
                ++ [LogObtained
                      {| oid := nextOid (browser w);
                         lit := {| lat := latitude (coords position);
                                   lng := longitude (coords position) |} |}];
              nextOid := S (nextOid (browser w)) |};
         gmaps := gmaps w;
         widget :=
           {| alive := true; wprops := wprops (widget w);
              hooks :=
                {| userLocation :=
                     Some {| oid := nextOid (browser w);
                             lit := {| lat := latitude (coords position);
                                       lng := longitude (coords position) |} |};
                   locationError := locationError (hooks (widget w));
                   isLoadingLocation := false |};
              scheduled := true; rendered := rendered (widget w);
              wrapper := wrapper (widget w);
              subtree := subtree (widget w) |} |}.
Proof.
  intros Ha. destruct w as [b g d].
  unfold deliver, flush, onSuccess, setUserLocation, setIsLoadingLocation,
    set_state, console_log, answer, alloc, on_widget, on_browser.
  simpl in *. rewrite Ha. simpl. reflexivity.
Qed.

Lemma onError_alive error w :
  alive (widget w) = true ->
  deliver (onError error) w =
    rerender
      {| browser :=
           {| geolocation := geolocation (browser w);
              requests := requests (browser w);
              outstanding := pred (outstanding (browser w));
              console := console (browser w) ++ [LogError (message error)];
              nextOid := nextOid (browser w) |};
         gmaps := gmaps w;
         widget :=
           {| alive := true; wprops := wprops (widget w);
              hooks := {| userLocation := userLocation (hooks (widget w));
                          locationError := Some (message error);
                          isLoadingLocation := false |};
              scheduled := true; rendered := rendered (widget w);
              wrapper := wrapper (widget w);
              subtree := subtree (widget w) |} |}.
Proof.
  intros Ha. destruct w as [b g d].
  unfold deliver, flush, onError, setLocationError, setIsLoadingLocation,
    set_state, console_log, answer, alloc, on_widget, on_browser.
  simpl in *. rewrite Ha. simpl. reflexivity.
Qed.

Lemma dead_browser_success position w :
  alive (widget w) = false ->
  scheduled (widget w) = false ->
  geolocation (browser (deliver (onSuccess position) w))
    = geolocation (browser w)
  /\ requests (browser (deliver (onSuccess position) w))
       = requests (browser w)
  /\ outstanding (browser (deliver (onSuccess position) w))
       = pred (outstanding (browser w)).
Proof.
  intros Ha Hs. destruct w as [b g d].
  unfold deliver, flush, onSuccess, setUserLocation, setIsLoadingLocation,
    set_state, console_log, answer, alloc, on_widget, on_browser.
  simpl in *. rewrite Ha. simpl. rewrite Ha, Hs. done.
Qed.

Lemma dead_browser_error error w :
  alive (widget w) = false ->
  scheduled (widget w) = false ->
  geolocation (browser (deliver (onError error) w))
    = geolocation (browser w)
  /\ requests (browser (deliver (onError error) w)) = requests (browser w)
  /\ outstanding (browser (deliver (onError error) w))
       = pred (outstanding (browser w)).
Proof.
  intros Ha Hs. destruct w as [b g d].
  unfold deliver, flush, onError, setLocationError, setIsLoadingLocation,
    set_state, console_log, answer, alloc, on_widget, on_browser.
  simpl in *. rewrite Ha. simpl. rewrite Ha, Hs. done.
Qed.

(** The widget just mounted, in a browser with the capability and in one
    without. *)
Lemma start_supported p :
  start p true =
    {| browser :=
         {| geolocation := true; requests := [options]; outstanding := 1;
            console := [LogRequesting]; nextOid := 1 |};
       gmaps := GM.empty;
       widget :=
         {| alive := true; wprops := p; hooks := initialState;
            scheduled := false; rendered := LoadingPlaceholder (className p);
            wrapper := None; subtree := None |} |}.
Proof. reflexivity. Qed.

Lemma start_unsupported p :
  start p false =
    {| browser :=
         {| geolocation := false; requests := []; outstanding := 0;
            console := [LogRequesting]; nextOid := 2 |};
       gmaps := GM.load (apiKey p) GM.empty;
       widget :=
         {| alive := true; wprops := p;
            hooks :=
              {| userLocation := None;
                 locationError :=
                   Some "Geolocation is not supported by this browser";
                 isLoadingLocation := false |};
            scheduled := false;
            rendered :=
              GoogleMap p 1
                {| userLocation := None;
                   locationError :=
                     Some "Geolocation is not supported by this browser";
                   isLoadingLocation := false |};
            wrapper := Some LOADING; subtree := None |} |}.
Proof. reflexivity. Qed.

(** ** The geolocation state of a mounted widget *)

Lemma GeoInv_start p geo : GeoInv geo (start p geo).
Proof.
  destruct geo.
  - rewrite start_supported. split; simpl; try done; try lia. by left.
  - rewrite start_unsupported. split; simpl; try done; try lia.
    right. split; [done |]. right. split; [done | eauto].
Qed.

Lemma GeoInv_step geo w w' : GeoInv geo w -> step w w' -> GeoInv geo w'.
Proof.
  intros [Hg Hr Hs Ho Hp Hsh] Hstep. destruct Hstep as
    [position w Hout | error w Hout | ok w Hw | w Ha | w Ha].
  - destruct (alive (widget w)) eqn:Ha.
    + rewrite (onSuccess_alive _ _ Ha).
      match goal with |- GeoInv _ (rerender ?w') =>
        destruct (rerender_frame w') as (F1 & F2 & F3 & F4 & F5 & F6 & F7 & F8)
      end.
      simpl in *. rewrite (Hp Hout) in *. simpl in *.
      split; rewrite ?F1, ?F2, ?F3, ?F6, ?F7; try done; try lia.
      right. simpl. split; [done |]. left. split; [eauto | done].
    + destruct (onSuccess_dead position w Ha Hs) as [Hd _].
      destruct (dead_browser_success position w Ha Hs) as (B1 & B2 & B3).
      split; rewrite ?Hd, ?B1, ?B2, ?B3; try done; lia.
  - destruct (alive (widget w)) eqn:Ha.
    + rewrite (onError_alive _ _ Ha).
      match goal with |- GeoInv _ (rerender ?w') =>
        destruct (rerender_frame w') as (F1 & F2 & F3 & F4 & F5 & F6 & F7 & F8)
      end.
      simpl in *. rewrite (Hp Hout) in *. simpl in *.
      split; rewrite ?F1, ?F2, ?F3, ?F6, ?F7; try done; try lia.
      right. simpl. split; [done |]. right. split; [done | eauto].
    + destruct (onError_dead error w Ha Hs) as [Hd _].
      destruct (dead_browser_error error w Ha Hs) as (B1 & B2 & B3).
      split; rewrite ?Hd, ?B1, ?B2, ?B3; try done; lia.
  - destruct (loaded_frame ok w) as (F1 & _ & F3 & _ & F5).
    split; rewrite ?F1, ?F3, ?F5; done.
  - destruct (commit_frame w) as (F1 & _ & F3 & _ & F5 & _).
    split; rewrite ?F1, ?F3, ?F5; done.
  - split; simpl; done.
Qed.

Lemma GeoInv_reachable p geo w : reachable p geo w -> GeoInv geo w.
Proof.
  unfold reachable. revert w.
  apply (rtc_ind_r (R := step) (GeoInv geo) (start p geo));
    eauto using GeoInv_start, GeoInv_step.
Qed.

Lemma GeoInv_exactly_one geo w : GeoInv geo w -> exactly_one (hooks (widget w)).
Proof.
  intros [_ _ _ _ _ Hsh]. unfold exactly_one, loading, resolved, failed.
  destruct Hsh as [-> | (Hl & [[Hu He] | [Hu He]])].
  - left. simpl. repeat split; try done; try by intros [? ?].
  - right. left. rewrite Hl, He. repeat split; try done; try by intros [? ?].
  - right. right. rewrite Hl, Hu. repeat split; try done; try by intros [? ?].
Qed.
(** ** The component [Marker] *)

Lemma changed_spec {D : Type} `{EqDecision D} (a b : D) :
  (changed a b = false /\ a = b) \/ (changed a b = true /\ a <> b).
Proof.
  unfold changed. case_bool_decide; [right | left]; split; try done;
    try by apply dec_stable.
Qed.

Lemma alter_last {A} (f : A -> A) (l : list A) (x : A) :
  alter f (length l) (l ++ [x]) = l ++ [f x].
Proof.
  replace (length l) with (length l + 0) by lia.
  by rewrite alter_app_r.
Qed.

Lemma lookup_last {A} (l : list A) (x y : A) :
  (l ++ [x]) !! length l = Some y -> x = y.
Proof. rewrite list_lookup_middle by done. congruence. Qed.

Lemma not_longer {A} (l : list A) (x : A) : l ≠ l ++ [x].
Proof.
  intros E. apply (f_equal length) in E. rewrite length_app in E.
  simpl in E. lia.
Qed.

Ltac unfold_commit :=
  unfold Marker.commit, Marker.effect_create, Marker.effect_sync,
    Marker.cleanup, GM.setPosition, GM.setMap, GM.on_marker, GM.new_Marker.

Ltac case_changed :=
  repeat match goal with
    | |- context [changed ?a ?b] =>
        destruct (changed_spec a b) as [[-> ?] | [-> ?]]; simplify_eq
    end.

(** One render of [Marker], with the decisions of [useEffect] made: unfold,
    decide what has changed, then run the effects. *)
Ltac step_marker :=
  unfold Marker.update, Marker.mount, Marker.unmount, Marker.state,
    Marker.deps_create, Marker.deps_sync;
  simpl; case_changed; unfold_commit; simpl; rewrite ?alter_last.

(** The cases of [MarkerInv]: no marker yet; the marker built and queued
    for the state; the marker in the state. *)
Ltac marker_cases i g H :=
  let Hc := fresh "Hc" in let Hm := fresh "Hm" in
  let Hl := fresh "Hl" in let Hk := fresh "Hk" in
  let ko := fresh "ko" in
  destruct H as [Hc Hm Hl Hk];
  destruct i as [? ? [? ? ?] ?], g as [? ? ?]; simpl in *;
  destruct Hk as [(? & ? & ? & ?) | (ko & ? & [[? ?] | [? ?]])];
  simplify_eq.

Lemma MarkerInv_mount g0 p :
  MarkerInv g0 (Marker.mount p g0).1 (Marker.mount p g0).2.
Proof.
  destruct p as [c [m |] t]; step_marker; split; simpl; try done.
  - right. eexists. split; [done |]. by left.
  - by left.
Qed.

Lemma MarkerInv_update g0 p i g :
  MarkerInv g0 i g ->
  MarkerInv g0 (Marker.update p i g).1 (Marker.update p i g).2.
Proof.
  intros H. destruct p as [c m t]. marker_cases i g H.
  all: step_marker.
  all: try destruct m as [m |]; simpl.
  all: split; simpl; try done.
  all: try (by left).
  all: right; eexists; (split; [reflexivity |]); by eauto.
Qed.

Lemma Marker_commit_props p m r1 r2 c g :
  Marker.props (Marker.commit p m r1 r2 c g).1 = p.
Proof. unfold_commit. by destruct r1, r2, m, c, (Marker.map p). Qed.

Lemma Marker_update_props p i g : Marker.props (Marker.update p i g).1 = p.
Proof. apply Marker_commit_props. Qed.

Lemma marker_run_snoc g0 p0 ps p :
  marker_run g0 p0 (ps ++ [p]) =
    Marker.update p (marker_run g0 p0 ps).1 (marker_run g0 p0 ps).2.
Proof. unfold marker_run. by rewrite foldl_app. Qed.

Lemma last_props_snoc p0 ps p : last_props p0 (ps ++ [p]) = p.
Proof. unfold last_props. by rewrite last_snoc. Qed.

Lemma marker_run_inv g0 p0 ps :
  MarkerInv g0 (marker_run g0 p0 ps).1 (marker_run g0 p0 ps).2.
Proof.
  induction ps as [| p ps IH] using rev_ind.
  - apply MarkerInv_mount.
  - rewrite marker_run_snoc. by apply MarkerInv_update.
Qed.

Lemma marker_run_props g0 p0 ps :
  Marker.props (marker_run g0 p0 ps).1 = last_props p0 ps.
Proof.
  destruct ps as [| p ps _] using rev_ind.
  - apply Marker_commit_props.
  - by rewrite marker_run_snoc, last_props_snoc, Marker_update_props.
Qed.

(** ** View-state derivation *)


Lemma GoogleMap_loading p a s :
  isLoadingLocation s = true ->
  GoogleMap p a s = LoadingPlaceholder (className p).
Proof. intros H. unfold GoogleMap. by rewrite H. Qed.

Lemma GoogleMap_settled p a s :
  isLoadingLocation s = false ->
  GoogleMap p a s =
    MapView (className p)
      {| banner := if truthy (locationError s) then locationError s else None;
         wrapperKey := apiKey p;
         tree :=
           {| Tree.map_props :=
                {| Map.center :=
                     default {| oid := a; lit := defaultCenter |}
                       (userLocation s);
                   Map.zoom := if userLocation s is Some _ then 15%Z
                                else 10%Z |};
              Tree.position :=
                default {| oid := a; lit := defaultCenter |} (userLocation s);
              Tree.title :=
                Some (if userLocation s is Some _ then "Your Current Location"
                      else "Default Location") |} |}.
Proof. intros H. unfold GoogleMap. by rewrite H. Qed.

Lemma GoogleMap_view p a s cn v :
  GoogleMap p a s = MapView cn v ->
  isLoadingLocation s = false
  /\ wrapperKey v = apiKey p
  /\ Tree.position (tree v) = Map.center (Tree.map_props (tree v)).
Proof.
  destruct (isLoadingLocation s) eqn:E.
  - by rewrite GoogleMap_loading.
  - rewrite GoogleMap_settled by done. intros [= _ <-]. done.
Qed.

(** ** The widget as a whole *)

Lemma rerender_first_view w :
  isLoadingLocation (hooks (widget w)) = false ->
  wrapper (widget w) = None ->
  gmaps (rerender w) = GM.load (apiKey (wprops (widget w))) (gmaps w)
  /\ alive (widget (rerender w)) = alive (widget w)
  /\ wrapper (widget (rerender w)) = Some LOADING
  /\ subtree (widget (rerender w)) = None.
Proof.
  intros Hl Hw. unfold rerender, alloc, reconcile. simpl.
  rewrite (GoogleMap_settled _ _ _ Hl), Hw. done.
Qed.

(** A successful load of the library ends the widget. *)
Lemma loaded_true_unmounts w cn v :
  wrapper (widget w) = Some LOADING ->
  rendered (widget w) = MapView cn v ->
  subtree (widget w) = None ->
  loaded true w = unmount w.
Proof.
  intros Hw Hv Ht. unfold loaded. rewrite Hw, Hv, Tree_mount_throws.
  unfold uncaught, unmount, on_widget. simpl. by rewrite Ht, Hv.
Qed.

Lemma AppInv_ext w w' :
  widget w' = widget w -> gmaps w' = gmaps w -> AppInv w -> AppInv w'.
Proof.
  intros Ew Eg [Hr Hs]. split; unfold AppShape in *; rewrite Ew, ?Eg; done.
Qed.

Lemma AppInv_start p geo : AppInv (start p geo).
Proof.
  destruct geo.
  - rewrite start_supported. split; simpl.
    + exists 0. by rewrite GoogleMap_loading.
    + split_and!; try done. by left.
  - rewrite start_unsupported. split; simpl; [by eexists |].
    split_and!; try done.
    right. rewrite GoogleMap_settled by done. do 2 eexists.
    split; [done |]. left. simpl. eauto.
Qed.

(** The render that follows the answer of the browser mounts [Wrapper]. *)
Lemma AppInv_settle w :
  alive (widget w) = true ->
  isLoadingLocation (hooks (widget w)) = false ->
  wrapper (widget w) = None ->
  GM.maps (gmaps w) = [] -> GM.markers (gmaps w) = [] ->
  AppInv (rerender w).
Proof.
  intros Ha Hl Hw Hm Hk.
  destruct (rerender_frame w) as (_ & _ & _ & _ & F5 & F6 & _ & F8).
  destruct (rerender_first_view w Hl Hw) as (R1 & R2 & R3 & R4).
  split.
  - eexists. by rewrite F8, F5, F6.
  - unfold AppShape. rewrite R1, R2, R3, R4, F8.
    rewrite (GoogleMap_settled _ _ _ Hl). simpl. split_and!; try done.
    right. do 2 eexists. split; [done |]. left. eauto.
Qed.

Lemma AppShape_loading w :
  AppInv w -> hooks (widget w) = initialState ->
  wrapper (widget w) = None /\ subtree (widget w) = None
  /\ GM.maps (gmaps w) = [] /\ GM.markers (gmaps w) = [].
Proof.
  intros [[a Hr] (Ht & Hm & Hk & Hs)] Hh.
  rewrite Hh, GoogleMap_loading in Hr by done.
  destruct Hs as [(_ & ?) | (cn & v & Hv & _)]; [done | congruence].
Qed.

Lemma AppInv_step geo w w' :
  GeoInv geo w -> AppInv w -> step w w' -> AppInv w'.
Proof.
  intros HG HA Hstep. destruct Hstep as
    [position w Hout | error w Hout | ok w Hw | w Ha | w Ha].
  - destruct (alive (widget w)) eqn:Ha.
    + destruct (AppShape_loading w HA (gi_pending _ _ HG Hout))
        as (Hw & _ & Hm & Hk).
      rewrite (onSuccess_alive _ _ Ha). by apply AppInv_settle.
    + destruct (onSuccess_dead position w Ha (gi_scheduled _ _ HG)).
      by eapply AppInv_ext.
  - destruct (alive (widget w)) eqn:Ha.
    + destruct (AppShape_loading w HA (gi_pending _ _ HG Hout))
        as (Hw & _ & Hm & Hk).
      rewrite (onError_alive _ _ Ha). by apply AppInv_settle.
    + destruct (onError_dead error w Ha (gi_scheduled _ _ HG)).
      by eapply AppInv_ext.
  - destruct HA as [[a Hr] (Ht & Hm & Hk & Hs)].
    destruct (loaded_frame ok w) as (_ & F2 & F3 & F4 & _).
    split; [exists a; by rewrite F4, F2, F3 |].
    destruct Hs as [(_ & ?) | (cn & v & Hv & Hs)]; [congruence |].
    destruct Hs as [(Hal & _) | (_ & ?)]; [| congruence].
    destruct ok.
    + rewrite (loaded_true_unmounts w cn v) by done.
      unfold AppShape, unmount. simpl. rewrite Ht. split_and!; try done.
      right. exists cn, v. split; [done |]. by right.
    + unfold AppShape, loaded. rewrite Hw, Hv. simpl. split_and!; try done.
      right. exists cn, v. split; [done |]. left. eauto.
  - destruct HA as [Hr (Ht & Hs)].
    destruct (commit_frame w) as (_ & _ & _ & _ & _ & ->); done.
  - destruct HA as [[a Hr] (Ht & Hm & Hk & Hs)]. split; [by exists a |].
    unfold unmount, AppShape. simpl. rewrite Ht. split_and!; try done.
    destruct Hs as [(? & ?) | (cn & v & Hv & Hs)]; [by left |].
    right. exists cn, v. split; [done |]. by right.
Qed.

Lemma AppInv_reachable p geo w : reachable p geo w -> AppInv w.
Proof.
  unfold reachable. revert w.
  apply (rtc_ind_r (R := step) AppInv (start p geo));
    [apply AppInv_start |].
  intros y z Hy Hstep HI.
  eapply AppInv_step; [by eapply GeoInv_reachable | done | done].
Qed.

(** ** Runs of [Marker] *)

(** A marker mounted with a map, rendered once more with the same props,
    and then given the same coordinates in another object. *)
Example run_with_equal_coordinates :
  let r := marker_run GM.empty (marker_at here) [marker_at here] in
  let r' := Marker.update (marker_at here_again) r.1 r.2 in
  Marker.state r.1 = Some 0
  /\ GM.position <$> GM.markers r.2 = [lit here]
  /\ GM.map <$> GM.markers r.2 = [Some 0]
  /\ Marker.state r'.1 = Some 0
  /\ GM.position <$> GM.markers r'.2 = [lit here]
  /\ GM.map <$> GM.markers r'.2 = [None].
Proof. unfold marker_run. simpl. step_marker. step_marker. done. Qed.

Lemma marker_run_count g0 p0 ps :
  GM.markers (marker_run g0 p0 ps).2 = GM.markers g0
  \/ exists ko, GM.markers (marker_run g0 p0 ps).2 = GM.markers g0 ++ [ko].
Proof.
  destruct (marker_run_inv g0 p0 ps) as [_ _ _ Hk].
  destruct Hk as [(_ & _ & -> & _) | (ko & -> & _)]; eauto.
Qed.

Lemma mount_with_map g0 p m :
  Marker.map p = Some m ->
  Marker.marker (Marker.mount p g0).1 = None
  /\ Marker.queued (Marker.mount p g0).1 = Some (length (GM.markers g0))
  /\ Marker.captured (Marker.mount p g0).1 = None
  /\ GM.markers (Marker.mount p g0).2
       = GM.markers g0
         ++ [{| GM.position := lit (Marker.position p);
                GM.map := Some m;
                GM.title := or_else (Marker.title p) "Your Location";
                GM.icon := Marker.markerIcon |}].
Proof. intros Hm. destruct p as [c ? t]. simpl in Hm. subst. by step_marker. Qed.

(** ** Properties of [Map] and [Marker] *)

(** C5.  The code does not do what the claim says.  [Map] builds no map at
    all: its render throws a [ReferenceError] for [React], whatever its
    props and state, so that [Map] and [Marker] are never mounted from the
    widget.  [Marker] rendered by itself builds at most one marker over any
    run of renders.  But a center update that repeats the coordinates of
    the last one in another object (which is what [GoogleMap] gives in
    every render over the default location) does not leave the marker as it
    was: the marker, which was on the map [m], is taken off it, and
    [Marker] goes on holding it. *)
Theorem repeated_center_update_takes_marker_off_map :
  (forall p g, Tree.mount p g = inl (ReferenceError "React"))
  /\ (forall p t g, Tree.update p t g = inl (ReferenceError "React"))
  /\ (forall g0 p0 ps,
        GM.markers (marker_run g0 p0 ps).2 = GM.markers g0
        \/ exists ko,
             GM.markers (marker_run g0 p0 ps).2 = GM.markers g0 ++ [ko])
  /\ (forall g0 p p' m,
        Marker.map p = Some m ->
        Marker.map p' = Some m ->
        Marker.title p' = Marker.title p ->
        lit (Marker.position p') = lit (Marker.position p) ->
        oid (Marker.position p') ≠ oid (Marker.position p) ->
        let r := marker_run g0 p [p] in
        let r' := Marker.update p' r.1 r.2 in
        exists ko,
          GM.markers r.2 = GM.markers g0 ++ [ko]
          /\ GM.map ko = Some m
          /\ GM.position ko = lit (Marker.position p)
          /\ GM.markers r'.2 = GM.markers g0 ++ [GM.with_map None ko]
          /\ Marker.state r'.1 = Marker.state r.1).
Proof.
  split_and!.
  - apply Tree_mount_throws.
  - apply Tree_update_throws.
  - apply marker_run_count.
  - intros g0 [c ? t] [c' ? t'] m Hm Hm' Ht Hl Ho. simpl in *. subst.
    unfold marker_run. simpl. step_marker. step_marker.
    eexists. split_and!; try reflexivity.
    step_marker. simpl. by rewrite Hl.
Qed.

Lemma repeated_center_update_takes_marker_off_map_witness :
  let r := marker_run GM.empty (marker_at here) [marker_at here] in
  let r' := Marker.update (marker_at here_again) r.1 r.2 in
  exists ko,
    GM.markers r.2 = [ko]
    /\ GM.map ko = Some 0
    /\ GM.position ko = lit here
    /\ GM.markers r'.2 = [GM.with_map None ko]
    /\ Marker.state r'.1 = Marker.state r.1.
Proof.
  destruct repeated_center_update_takes_marker_off_map as (_ & _ & _ & H).
  apply (H GM.empty (marker_at here) (marker_at here_again) 0);
    try reflexivity.
  simpl. lia.
Defined.

(** C8.  The code does not do what the claim says, for a marker that has
    just been built.  The cleanup of the first effect of [Marker] detaches
    the marker that the render saw, not the one that the effect builds.
    When [Marker] is mounted with a map, its effect builds the marker on
    that map with the state still undefined; a teardown that comes before
    the next render runs a cleanup that holds no marker, and the marker
    that exists stays on its map.  After one more render the marker is in
    the state, and a teardown then sets its map to [null].  No map is
    touched by a teardown. *)
Theorem teardown_leaves_new_marker_on_map g0 p m :
  Marker.map p = Some m ->
  let r := Marker.mount p g0 in
  let r' := Marker.update p r.1 r.2 in
  exists ko,
    GM.markers r.2 = GM.markers g0 ++ [ko]
    /\ GM.map ko = Some m
    /\ Marker.unmount r.1 r.2 = r.2
    /\ GM.markers (Marker.unmount r'.1 r'.2)
         = GM.markers g0 ++ [GM.with_map None ko]
    /\ GM.maps (Marker.unmount r.1 r.2) = GM.maps g0
    /\ GM.maps (Marker.unmount r'.1 r'.2) = GM.maps g0.
Proof.
  intros Hm. destruct p as [c ? t]. simpl in Hm. subst.
  step_marker. step_marker. eexists. split_and!; reflexivity.
Qed.

Lemma teardown_leaves_new_marker_on_map_witness :
  let r := Marker.mount (marker_at here) GM.empty in
  exists ko,
    GM.markers r.2 = [ko]
    /\ GM.map ko = Some 0
    /\ GM.markers (Marker.unmount r.1 r.2) = [ko].
Proof.
  destruct (teardown_leaves_new_marker_on_map GM.empty (marker_at here) 0)
    as (ko & H1 & H2 & H3 & _); [reflexivity |].
  exists ko. split_and!; [exact H1 | exact H2 |].
  rewrite H3. exact H1.
Defined.

(** C9.  The code does not do what the claim says.  The position given to
    [Marker] is the very object given to [Map] as its center, in every map
    view that [GoogleMap] returns.  But no marker is ever rendered: in every
    state that a widget reaches the library holds no map and no marker, and
    when the library has loaded, the first render of [Map] throws and React
    unmounts the widget, which leaves a blank surface. *)
Theorem no_marker_is_ever_rendered p geo w :
  reachable p geo w ->
  GM.maps (gmaps w) = [] /\ GM.markers (gmaps w) = []
  /\ (forall cn v,
        rendered (widget w) = MapView cn v ->
        Tree.position (tree v) = Map.center (Tree.map_props (tree v))
        /\ Tree.mount (tree v) (gmaps w) = inl (ReferenceError "React"))
  /\ (wrapper (widget w) = Some LOADING ->
      alive (widget (loaded true w)) = false
      /\ shown (widget (loaded true w)) = Blank
      /\ gmaps (loaded true w) = gmaps w).
Proof.
  intros Hr. destruct (AppInv_reachable _ _ _ Hr) as [[a Ha] Hs].
  destruct Hs as (Ht & Hm & Hk & Hs). split_and!; try done.
  - intros cn v Hv. rewrite Hv in Ha. symmetry in Ha.
    destruct (GoogleMap_view _ _ _ _ _ Ha) as (_ & _ & Hpos).
    split; [done | apply Tree_mount_throws].
  - intros Hw.
    destruct Hs as [(_ & ?) | (cn & v & Hv & _)]; [congruence |].
    rewrite (loaded_true_unmounts w cn v) by done.
    unfold unmount, shown. simpl. by rewrite Ht.
Qed.

Lemma no_marker_is_ever_rendered_witness :
  let w := start some_props false in
  wrapper (widget w) = Some LOADING
  /\ alive (widget (loaded true w)) = false
  /\ shown (widget (loaded true w)) = Blank
  /\ GM.maps (gmaps (loaded true w)) = []
  /\ GM.markers (gmaps (loaded true w)) = [].
Proof.
  intros w.
  destruct (no_marker_is_ever_rendered some_props false w)
    as (_ & _ & _ & H); [apply rtc_refl |].
  destruct H as (H1 & H2 & _); [reflexivity |].
  destruct (no_marker_is_ever_rendered some_props false (loaded true w))
    as (H3 & H4 & _).
  { apply rtc_once, (step_loaded true). reflexivity. }
  split_and!; [reflexivity | exact H1 | exact H2 | exact H3 | exact H4].
Defined.

(** ** Properties of [GoogleMap] and [Home] *)

(** C1.  Once the location has settled, [GoogleMap] returns the map view
    (it is a function of the state, so the view is reproducible), in which
    the zoom is 15 exactly when [userLocation] holds a position and 10
    exactly when it does not, the center is the position held by
    [userLocation] when there is one and the fallback coordinates otherwise.
    When the browser answers the request of a freshly mounted widget with
    latitude 40.0 and longitude -74.0, the view has center (40.0, -74.0),
    zoom 15 and marker title "Your Current Location". *)
Theorem view_state_derivation p a s :
  isLoadingLocation s = false ->
  (exists v,
     GoogleMap p a s = MapView (className p) v
     /\ (Map.zoom (Tree.map_props (tree v)) = 15%Z
         <-> is_Some (userLocation s))
     /\ (Map.zoom (Tree.map_props (tree v)) = 10%Z
         <-> userLocation s = None)
     /\ (forall l, userLocation s = Some l ->
           Map.center (Tree.map_props (tree v)) = l)
     /\ (userLocation s = None ->
           lit (Map.center (Tree.map_props (tree v))) = defaultCenter))
  /\ (exists v,
        rendered (widget (deliver (onSuccess position4074) (start p true)))
          = MapView (className p) v
        /\ lit (Map.center (Tree.map_props (tree v)))
             = {| lat := 40.0; lng := -74.0 |}
        /\ Map.zoom (Tree.map_props (tree v)) = 15%Z
        /\ Tree.title (tree v) = Some "Your Current Location").
Proof.
  intros Hs. split.
  - eexists. split; [apply GoogleMap_settled, Hs |]. simpl.
    destruct (userLocation s) as [l |]; simpl.
    + split_and!; try done; eauto; try by intros l' [= ->].
    + split_and!; try done; try by intros [? ?].
  - rewrite start_supported, onSuccess_alive by done.
    match goal with |- context [rerender ?w'] =>
      destruct (rerender_frame w') as (_ & _ & _ & _ & _ & _ & _ & F) end.
    rewrite F. simpl. rewrite GoogleMap_settled by done.
    eexists. split; [reflexivity |]. done.
Qed.

Lemma view_state_derivation_witness :
  exists v,
    GoogleMap some_props 0
      {| userLocation := None; locationError := Some "denied";
         isLoadingLocation := false |} = MapView "" v
    /\ Map.zoom (Tree.map_props (tree v)) = 10%Z.
Proof.
  destruct (view_state_derivation some_props 0
              {| userLocation := None; locationError := Some "denied";
                 isLoadingLocation := false |} eq_refl)
    as [[v (Hv & _ & Hz & _)] _].
  exists v. split; [exact Hv | apply Hz; reflexivity].
Defined.

(** C2.  In every state that a mounted widget reaches, exactly one of
    loading, resolved location and error holds of its geolocation state.
    The widget starts loading when the capability exists; while it is
    loading neither a location nor an error is set; when the browser
    answers the outstanding request of a mounted widget through the success
    callback the state holds the position, no error, and loading false;
    when it answers through the error callback the state holds the message,
    no location, and loading false. *)
Theorem geolocation_state_exclusive p geo w :
  reachable p geo w ->
  exactly_one (hooks (widget w))
  /\ hooks (widget (start p true)) = initialState
  /\ (loading (hooks (widget w)) ->
        userLocation (hooks (widget w)) = None
        /\ locationError (hooks (widget w)) = None)
  /\ (alive (widget w) = true -> 0 < outstanding (browser w) ->
        (forall position, exists l,
            hooks (widget (deliver (onSuccess position) w)) =
              {| userLocation := Some l; locationError := None;
                 isLoadingLocation := false |}
            /\ lit l = {| lat := latitude (coords position);
                          lng := longitude (coords position) |})
        /\ (forall error,
              hooks (widget (deliver (onError error) w)) =
                {| userLocation := None;
                   locationError := Some (message error);
                   isLoadingLocation := false |})).
Proof.
  intros Hr. pose proof (GeoInv_reachable _ _ _ Hr) as HI.
  split; [by eapply GeoInv_exactly_one |].
  split; [by rewrite start_supported |].
  destruct HI as [_ _ _ _ Hp Hsh]. split.
  - unfold loading. intros Hl.
    destruct Hsh as [-> | [Hl' _]]; [done | congruence].
  - intros Ha Hout. specialize (Hp Hout). split.
    + intros position. rewrite (onSuccess_alive _ _ Ha).
      match goal with |- context [rerender ?w'] =>
        destruct (rerender_frame w') as (_ & _ & _ & _ & _ & F & _) end.
      rewrite F, Hp. simpl. eauto.
    + intros error. rewrite (onError_alive _ _ Ha).
      match goal with |- context [rerender ?w'] =>
        destruct (rerender_frame w') as (_ & _ & _ & _ & _ & F & _) end.
      rewrite F, Hp. reflexivity.
Qed.

Lemma geolocation_state_exclusive_witness :
  exactly_one (hooks (widget (start some_props true)))
  /\ userLocation (hooks (widget (start some_props true))) = None
  /\ hooks (widget (deliver (onError denied) (start some_props true))) =
       {| userLocation := None;
          locationError := Some "User denied Geolocation";
          isLoadingLocation := false |}.
Proof.
  destruct (geolocation_state_exclusive some_props true
              (start some_props true) (rtc_refl _ _))
    as (H1 & _ & H3 & H4).
  split; [exact H1 |]. split.
  - apply H3. reflexivity.
  - destruct (H4 eq_refl ltac:(simpl; lia)) as [_ He].
    exact (He denied).
Defined.

(** C3.  Once the widget is unmounted, the success callback and the error
    callback of a request that was still outstanding return normally (they
    are total functions) and change neither the state of the widget, which
    React has dropped, nor the instances of the library. *)
Theorem late_callback_is_noop p geo w :
  reachable p geo w ->
  alive (widget w) = false ->
  forall position error,
    (widget (deliver (onSuccess position) w) = widget w
     /\ gmaps (deliver (onSuccess position) w) = gmaps w)
    /\ (widget (deliver (onError error) w) = widget w
        /\ gmaps (deliver (onError error) w) = gmaps w).
Proof.
  intros Hr Ha position error.
  destruct (GeoInv_reachable _ _ _ Hr) as [_ _ Hs _ _ _].
  split; [by apply onSuccess_dead | by apply onError_dead].
Qed.

Lemma late_callback_is_noop_witness :
  let w := unmount (start some_props true) in
  outstanding (browser w) = 1
  /\ widget (deliver (onSuccess position4074) w) = widget w
  /\ widget (deliver (onError denied) w) = widget w.
Proof.
  intros w.
  assert (Hr : reachable some_props true w).
  { apply rtc_once. apply step_unmount. reflexivity. }
  destruct (late_callback_is_noop some_props true w Hr eq_refl position4074
              denied) as [[H1 _] [H2 _]].
  split; [reflexivity |]. split; [exact H1 | exact H2].
Defined.

(** C4.  Mounting the widget in a browser without [navigator.geolocation]
    sets the error message and clears the loading flag in the mount itself,
    calls [getCurrentPosition] not at all, and renders the view with the
    fallback center (37.7749, -122.4194), zoom 10 and the marker title
    "Default Location". *)
Theorem geolocation_unsupported p :
  let w := start p false in
  hooks (widget w) =
    {| userLocation := None;
       locationError := Some "Geolocation is not supported by this browser";
       isLoadingLocation := false |}
  /\ requests (browser w) = []
  /\ outstanding (browser w) = 0
  /\ exists v,
       rendered (widget w) = MapView (className p) v
       /\ lit (Map.center (Tree.map_props (tree v)))
            = {| lat := 37.7749; lng := -122.4194 |}
       /\ Map.zoom (Tree.map_props (tree v)) = 10%Z
       /\ Tree.title (tree v) = Some "Default Location".
Proof.
  intros w. subst w. rewrite start_unsupported. simpl.
  split_and!; try done.
  rewrite GoogleMap_settled by done. eexists. split; [reflexivity |]. done.
Qed.

(** C6.  Whatever happens to a widget after its mount (answers of either
    kind, loads, renders, unmount), [getCurrentPosition] has been called
    exactly once, with [enableHighAccuracy] true, a timeout of 10000 ms and
    a maximum age of 60000 ms, when the browser has the capability, and not
    at all when it has not. *)
Theorem single_geolocation_request p geo w :
  reachable p geo w ->
  requests (browser w) =
    if geo then
      [ {| enableHighAccuracy := true; timeout := 10000;
           maximumAge := 60000 |} ]
    else [].
Proof. intros Hr. by destruct (GeoInv_reachable _ _ _ Hr). Qed.

Lemma single_geolocation_request_witness :
  requests (browser (deliver (onError denied) (start some_props true))) =
    [ {| enableHighAccuracy := true; timeout := 10000;
         maximumAge := 60000 |} ].
Proof.
  apply (single_geolocation_request some_props true).
  apply rtc_once. apply step_error. simpl. lia.
Defined.


(** C7.  When the environment has no API key, or the empty string for it,
    [Home] returns the placeholder panel in place of the widget, and the
    page stays as it was built: the library has had no script load asked of
    it and no instance built, and no widget exists. *)
Theorem missing_api_key env geo :
  env !! keyName = None \/ env !! keyName = Some "" ->
  Home env = ApiKeyRequiredPanel
  /\ forall pg,
       rtc page_step (boot env geo) pg ->
       pg = PlaceholderPage (fresh_browser geo)
              {| GM.loads := []; GM.maps := []; GM.markers := [] |}.
Proof.
  intros He.
  assert (HH : Home env = ApiKeyRequiredPanel).
  { unfold Home. by destruct He as [-> | ->]. }
  split; [exact HH |]. unfold boot. rewrite HH.
  intros pg Hrtc. inversion Hrtc as [| ? ? ? Hstep]; [done |].
  inversion Hstep.
Qed.

Lemma missing_api_key_witness :
  Home ∅ = ApiKeyRequiredPanel
  /\ Home {[ keyName := "" ]} = ApiKeyRequiredPanel.
Proof.
  split.
  - apply (missing_api_key ∅ true). left. reflexivity.
  - apply (missing_api_key {[ keyName := "" ]} true). right. reflexivity.
Defined.

(** C10.  When the first effect of [Marker] builds the marker (no marker
    yet, a map given) and the [title] prop is absent or the empty string,
    the marker built has the title "Your Location". *)
Theorem marker_default_title p m g :
  Marker.map p = Some m ->
  Marker.title p = None \/ Marker.title p = Some "" ->
  exists k g' o,
    Marker.effect_create p None g = (Some k, g')
    /\ GM.markers g' !! k = Some o
    /\ GM.title o = "Your Location".
Proof.
  intros Hm Ht. unfold Marker.effect_create. rewrite Hm. simpl.
  do 3 eexists. split; [reflexivity |]. split.
  - simpl. by apply list_lookup_middle.
  - simpl. by destruct Ht as [-> | ->].
Qed.

Lemma marker_default_title_witness :
  exists k g' o,
    Marker.effect_create
      {| Marker.position := here;
         Marker.map := Some 0;
         Marker.title := Some "" |} None GM.empty = (Some k, g')
    /\ GM.markers g' !! k = Some o
    /\ GM.title o = "Your Location".
Proof.
  apply (marker_default_title _ 0); [reflexivity | right; reflexivity].
Defined.

(** * Further properties *)

(** ** After the location has settled *)

Lemma settled_step geo w w' :
  GeoInv geo w ->
  isLoadingLocation (hooks (widget w)) = false ->
  step w w' ->
  browser w' = browser w
  /\ wprops (widget w') = wprops (widget w)
  /\ hooks (widget w') = hooks (widget w)
  /\ rendered (widget w') = rendered (widget w).
Proof.
  intros G Hs Hst. destruct Hst as [position w H | error w H | ok w H | w H | w H].
  - apply (gi_pending _ _ G) in H. rewrite H in Hs. discriminate.
  - apply (gi_pending _ _ G) in H. rewrite H in Hs. discriminate.
  - destruct (loaded_frame ok w) as (? & ? & ? & ? & _). done.
  - destruct (commit_frame w) as (? & ? & ? & ? & _). done.
  - done.
Qed.

(** X2.  Once the location has settled (a position, an error, or no
    geolocation in the browser), the widget is through with the browser and
    with its state: whatever happens later (the library loads or fails,
    [Map] and [Marker] render, the widget is unmounted), no request is
    made, nothing is logged, [GoogleMap] does not render again, and its
    state and the element it returned stay as they are. *)
Theorem settled_state_is_final p geo w w' :
  reachable p geo w ->
  isLoadingLocation (hooks (widget w)) = false ->
  rtc step w w' ->
  browser w' = browser w
  /\ hooks (widget w') = hooks (widget w)
  /\ rendered (widget w') = rendered (widget w).
Proof.
  intros Hr Hs Hrun.
  cut (reachable p geo w'
       /\ browser w' = browser w
       /\ wprops (widget w') = wprops (widget w)
       /\ hooks (widget w') = hooks (widget w)
       /\ rendered (widget w') = rendered (widget w));
    [by intros (_ & ? & _ & ? & ?) |].
  revert w' Hrun.
  apply (rtc_ind_r (R := step)
           (fun w' => reachable p geo w'
                      /\ browser w' = browser w
                      /\ wprops (widget w') = wprops (widget w)
                      /\ hooks (widget w') = hooks (widget w)
                      /\ rendered (widget w') = rendered (widget w)) w);
    [done |].
  intros y z _ Hstep (Hy & Hb & Hp & Hh & Hv).
  split; [by eapply rtc_r |].
  destruct (settled_step geo y z) as (? & ? & ? & ?);
    [by eapply GeoInv_reachable | congruence | done |].
  split_and!; congruence.
Qed.

Lemma settled_state_is_final_witness :
  let w := start some_props false in
  let w' := unmount (commit (loaded true w)) in
  browser w' = browser w
  /\ hooks (widget w') = hooks (widget w)
  /\ rendered (widget w') = rendered (widget w).
Proof.
  apply (settled_state_is_final some_props false).
  - apply rtc_refl.
  - reflexivity.
  - replace (unmount (commit (loaded true (start some_props false))))
      with (loaded true (start some_props false)) by reflexivity.
    apply rtc_once, (step_loaded true). reflexivity.
Defined.

(** ** The load of the library's script *)

Lemma unmount_loads t g : GM.loads (Tree.unmount t g) = GM.loads g.
Proof.
  unfold Tree.unmount, Marker.unmount, Marker.cleanup.
  by destruct (Marker.captured _).
Qed.

Lemma LoadInv_start p geo : LoadInv p (start p geo).
Proof.
  destruct geo; [rewrite start_supported | rewrite start_unsupported]; by split.
Qed.

Lemma LoadInv_same p w w' :
  wprops (widget w') = wprops (widget w) ->
  hooks (widget w') = hooks (widget w) ->
  GM.loads (gmaps w') = GM.loads (gmaps w) ->
  LoadInv p w -> LoadInv p w'.
Proof.
  intros E1 E2 E3 [H1 H2]. split; [congruence |]. by rewrite E3, E2.
Qed.

Lemma LoadInv_settle p w :
  wprops (widget w) = p ->
  isLoadingLocation (hooks (widget w)) = false ->
  wrapper (widget w) = None ->
  GM.loads (gmaps w) = [] ->
  LoadInv p (rerender w).
Proof.
  intros Hp Hs Hw Hl.
  destruct (rerender_first_view w Hs Hw) as (Hg & _).
  destruct (rerender_frame w) as (_ & _ & _ & _ & Hp' & Hh & _).
  split; [congruence |]. rewrite Hh, Hs, Hg. simpl. by rewrite Hl, Hp.
Qed.

Lemma LoadInv_step p geo w w' :
  GeoInv geo w -> AppInv w -> LoadInv p w -> step w w' -> LoadInv p w'.
Proof.
  intros G A L Hst.
  destruct Hst as [position w H | error w H | ok w H | w H | w H].
  - pose proof (gi_pending _ _ G H) as Hi.
    destruct (AppShape_loading w A Hi) as (Hw & _).
    destruct (alive (widget w)) eqn:Ea.
    + rewrite (onSuccess_alive _ _ Ea). apply LoadInv_settle; simpl; try done.
      * apply L.
      * rewrite (li_loads _ _ L), Hi. done.
    + destruct (onSuccess_dead position w Ea (gi_scheduled _ _ G)) as [E1 E2].
      apply (LoadInv_same p w); by rewrite ?E1, ?E2.
  - pose proof (gi_pending _ _ G H) as Hi.
    destruct (AppShape_loading w A Hi) as (Hw & _).
    destruct (alive (widget w)) eqn:Ea.
    + rewrite (onError_alive _ _ Ea). apply LoadInv_settle; simpl; try done.
      * apply L.
      * rewrite (li_loads _ _ L), Hi. done.
    + destruct (onError_dead error w Ea (gi_scheduled _ _ G)) as [E1 E2].
      apply (LoadInv_same p w); by rewrite ?E1, ?E2.
  - destruct (loaded_frame ok w) as (_ & Hp & Hh & _).
    apply (LoadInv_same p w); try done.
    unfold loaded. rewrite H.
    destruct (rendered (widget w)); [done |].
    rewrite Tree_mount_throws. by destruct ok.
  - destruct A as [_ (Ht & _)].
    destruct (commit_frame w) as (_ & _ & _ & _ & _ & ->); done.
  - apply (LoadInv_same p w); try done. simpl.
    destruct (subtree (widget w)); [| done]. apply unmount_loads.
Qed.

Lemma LoadInv_reachable p geo w : reachable p geo w -> LoadInv p w.
Proof.
  intros Hr.
  cut (reachable p geo w /\ LoadInv p w); [by intros [_ ?] |].
  revert w Hr. unfold reachable.
  apply (rtc_ind_r (R := step)
           (fun w => reachable p geo w /\ LoadInv p w) (start p geo)).
  - split; [apply rtc_refl | apply LoadInv_start].
  - intros y z _ Hstep [Hy L]. split; [by eapply rtc_r |].
    eapply LoadInv_step; eauto using GeoInv_reachable, AppInv_reachable.
Qed.

(** X3.  The script of the library is asked for with the API key that the
    widget was given, once, and only when the location has settled: while
    [isLoadingLocation] holds no load has been started, and from then on
    exactly one has, whatever happens to the widget. *)
Theorem script_load_awaits_location p geo w :
  reachable p geo w ->
  GM.loads (gmaps w) =
    if isLoadingLocation (hooks (widget w)) then [] else [apiKey p].
Proof. intros Hr. by apply li_loads, (LoadInv_reachable p geo). Qed.

Lemma script_load_awaits_location_witness :
  GM.loads (gmaps (start some_props true)) = []
  /\ GM.loads (gmaps (deliver (onError denied) (start some_props true)))
       = ["key"].
Proof.
  split.
  - apply (script_load_awaits_location some_props true). apply rtc_refl.
  - apply (script_load_awaits_location some_props true
             (deliver (onError denied) (start some_props true))).
    apply rtc_once, step_error. rewrite start_supported. simpl. lia.
Defined.

(** ** What the widget shows *)

(** X4.  A mounted widget shows the location spinner exactly while the
    location loads and one of the two panels of [render] afterwards: never
    a blank surface (the [default] branch of [render] is not reached, and
    there is no state without a [Wrapper] once the location has settled),
    and never the map, since a [Wrapper] that holds [SUCCESS] has children
    whose render throws. *)
Theorem mounted_widget_shows_spinner_or_panel p geo w :
  reachable p geo w ->
  alive (widget w) = true ->
  (shown (widget w) = LocationSpinner
   /\ isLoadingLocation (hooks (widget w)) = true)
  \/ (exists panel,
        shown (widget w) = WrapperPanel panel
        /\ isLoadingLocation (hooks (widget w)) = false
        /\ exists status,
             wrapper (widget w) = Some status
             /\ render status = Some panel).
Proof.
  intros Hr Ha. destruct (AppInv_reachable _ _ _ Hr) as [[a Hv] Hs].
  unfold shown. rewrite Ha.
  destruct Hs as (_ & _ & _ & [(Hl & Hw) | (cn & v & Hm & Hs)]).
  - rewrite (GoogleMap_loading _ _ _ Hl) in Hv. rewrite Hv. by left.
  - rewrite Hm in Hv. symmetry in Hv.
    apply GoogleMap_view in Hv as (Hl & _). rewrite Hm.
    destruct Hs as [(_ & Hw) | (Hd & _)]; [| congruence].
    right. destruct Hw as [-> | ->]; simpl; eauto 10.
Qed.

Lemma mounted_widget_shows_spinner_or_panel_witness :
  let w := loaded false (start some_props false) in
  (shown (widget w) = LocationSpinner
   /\ isLoadingLocation (hooks (widget w)) = true)
  \/ (exists panel,
        shown (widget w) = WrapperPanel panel
        /\ isLoadingLocation (hooks (widget w)) = false
        /\ exists status,
             wrapper (widget w) = Some status
             /\ render status = Some panel).
Proof.
  apply (mounted_widget_shows_spinner_or_panel some_props false).
  - apply rtc_once, (step_loaded false). reflexivity.
  - reflexivity.
Defined.

Lemma FailedShape_step geo w w' :
  GeoInv geo w -> AppInv w -> FailedShape w -> step w w' -> FailedShape w'.
Proof.
  intros G [[a Hv] _] (Hm & Hk & Ht & (cn & v & Hr) & Hw) Hst.
  assert (Hl : isLoadingLocation (hooks (widget w)) = false).
  { rewrite Hr in Hv. symmetry in Hv. by apply GoogleMap_view in Hv as (? & _). }
  destruct Hst as [position w H | error w H | ok w H | w H | w H].
  - apply (gi_pending _ _ G) in H. rewrite H in Hl. discriminate.
  - apply (gi_pending _ _ G) in H. rewrite H in Hl. discriminate.
  - destruct Hw as [[_ Hw] | [_ Hw]]; congruence.
  - unfold commit. rewrite Ht. unfold FailedShape. by eauto 10.
  - unfold FailedShape. simpl. rewrite Ht. split_and!; eauto.
Qed.

(** X5.  A failed load of the library is final: from a state in which
    [Wrapper] holds [FAILURE], whatever happens later, no map and no marker
    is ever built, and the widget shows the failure panel of [render] for as
    long as it is mounted. *)
Theorem library_failure_is_final p geo w w' :
  reachable p geo w ->
  wrapper (widget w) = Some FAILURE ->
  rtc step w w' ->
  GM.maps (gmaps w') = [] /\ GM.markers (gmaps w') = []
  /\ (alive (widget w') = true ->
      shown (widget w') = WrapperPanel MapFailurePanel).
Proof.
  intros Hr Hf Hrun.
  assert (H0 : FailedShape w).
  { destruct (AppInv_reachable _ _ _ Hr) as [_ Hs].
    destruct Hs as (Ht & Hm & Hk & [(_ & Hw) | (cn & v & Hv & Hs)]);
      [congruence |].
    destruct Hs as [(Ha & _) | (_ & Hw)]; [| congruence].
    unfold FailedShape. split_and!; eauto. }
  cut (reachable p geo w' /\ FailedShape w').
  { intros (_ & Hm & Hk & _ & (cn & v & Hv) & Hw). split_and!; [done .. |].
    intros Ha. destruct Hw as [[_ Hw] | [Hd _]]; [| congruence].
    unfold shown. by rewrite Ha, Hv, Hw. }
  revert w' Hrun.
  apply (rtc_ind_r (R := step)
           (fun w' => reachable p geo w' /\ FailedShape w') w); [done |].
  intros y z _ Hstep [Hy Fy]. split; [by eapply rtc_r |].
  eapply FailedShape_step; eauto using GeoInv_reachable, AppInv_reachable.
Qed.

Lemma library_failure_is_final_witness :
  let w := loaded false (start some_props false) in
  let w' := commit w in
  GM.maps (gmaps w') = [] /\ GM.markers (gmaps w') = []
  /\ shown (widget w') = WrapperPanel MapFailurePanel.
Proof.
  destruct (library_failure_is_final some_props false
              (loaded false (start some_props false))
              (commit (loaded false (start some_props false))))
    as (H1 & H2 & H3).
  - apply rtc_once, (step_loaded false). reflexivity.
  - reflexivity.
  - apply rtc_once, step_commit. reflexivity.
  - split_and!; [exact H1 | exact H2 | apply H3; reflexivity].
Defined.

(** ** The marker over a run of renders *)

Lemma first_with_map_snoc ps p :
  first_with_map (ps ++ [p]) =
    match first_with_map ps with
    | Some q => Some q
    | None => if Marker.map p is Some _ then Some p else None
    end.
Proof.
  induction ps as [| q ps IH]; simpl; [done |].
  by destruct (Marker.map q).
Qed.

Lemma update_title g0 p i g :
  MarkerInv g0 i g ->
  (GM.markers g = GM.markers g0 ->
     (Marker.map p = None /\ GM.markers (Marker.update p i g).2 = GM.markers g0)
     \/ (is_Some (Marker.map p)
         /\ exists ko,
              GM.markers (Marker.update p i g).2 = GM.markers g0 ++ [ko]
              /\ GM.title ko = or_else (Marker.title p) "Your Location"))
  /\ (forall ko,
        GM.markers g = GM.markers g0 ++ [ko] ->
        exists ko',
          GM.markers (Marker.update p i g).2 = GM.markers g0 ++ [ko']
          /\ GM.title ko' = GM.title ko).
Proof.
  intros H. destruct p as [c m t]. marker_cases i g H.
  - split.
    + intros _. destruct m as [m |]; step_marker.
      all: try (by left).
      all: right; (split; [by eexists |]); by eexists.
    + intros ko E. by destruct (not_longer _ _ E).
  - split.
    + intros E. symmetry in E. by destruct (not_longer _ _ E).
    + intros ko' E. apply app_inv_head in E. simplify_eq.
      step_marker; destruct m; simpl; by eexists.
  - split.
    + intros E. symmetry in E. by destruct (not_longer _ _ E).
    + intros ko' E. apply app_inv_head in E. simplify_eq.
      step_marker; by eexists.
Qed.

(** X6.  Over any run of renders of [Marker], the marker is built in the
    first render that is given a map, and its title is
    [title || "Your Location"] of that render: no later render writes a
    title to the marker, whatever titles it is given.  A run in which no
    render is given a map builds no marker. *)
Theorem marker_title_set_once g0 p0 ps :
  match first_with_map (p0 :: ps) with
  | Some p =>
      exists ko,
        GM.markers (marker_run g0 p0 ps).2 = GM.markers g0 ++ [ko]
        /\ GM.title ko = or_else (Marker.title p) "Your Location"
  | None => GM.markers (marker_run g0 p0 ps).2 = GM.markers g0
  end.
Proof.
  induction ps as [| p ps IH] using rev_ind.
  - unfold marker_run. simpl.
    destruct (Marker.map p0) as [m |] eqn:Em.
    + eexists. split; [by apply (mount_with_map g0 p0 m) | done].
    + destruct p0 as [c ? t]. simpl in Em. subst. by step_marker.
  - rewrite app_comm_cons, first_with_map_snoc, marker_run_snoc.
    destruct (update_title g0 p _ _ (marker_run_inv g0 p0 ps)) as [H1 H2].
    destruct (first_with_map (p0 :: ps)) as [q |].
    + destruct IH as (ko & Hko & Ht).
      destruct (H2 ko Hko) as (ko' & Hko' & Ht').
      exists ko'. split; [done | congruence].
    + destruct (H1 IH) as [[-> ?] | [[m ->] ?]]; done.
Qed.

Lemma update_keeps_marker g0 p i g :
  MarkerInv g0 i g ->
  is_Some (Marker.marker i) ->
  is_Some (Marker.marker (Marker.update p i g).1).
Proof.
  intros H [k Hk]. destruct p as [c m t]. marker_cases i g H.
  step_marker; by eexists.
Qed.

Lemma run_keeps_marker g0 p0 ps qs :
  is_Some (Marker.marker (marker_run g0 p0 ps).1) ->
  is_Some (Marker.marker (marker_run g0 p0 (ps ++ qs)).1).
Proof.
  intros H. induction qs as [| q qs IH] using rev_ind.
  - by rewrite app_nil_r.
  - rewrite app_assoc, marker_run_snoc.
    eapply update_keeps_marker; [apply marker_run_inv | done].
Qed.

Lemma update_detaches g0 p i g :
  MarkerInv g0 i g ->
  is_Some (Marker.marker i) ->
  Marker.map p ≠ Marker.map (Marker.props i)
  \/ oid (Marker.position p) ≠ oid (Marker.position (Marker.props i))
  \/ Marker.title p ≠ Marker.title (Marker.props i) ->
  detached g0 (Marker.update p i g).2.
Proof.
  intros H [k Hk] Ho. destruct p as [c m t]. marker_cases i g H.
  step_marker.
  all: try (by destruct Ho as [? | [? | ?]]).
  all: intros ? E%lookup_last; subst; simpl; try done.
Qed.

Lemma update_stays_detached g0 p i g :
  MarkerInv g0 i g ->
  is_Some (Marker.marker i) ->
  detached g0 g ->
  detached g0 (Marker.update p i g).2.
Proof.
  intros H [k Hk] Hd. destruct p as [c m t]. marker_cases i g H.
  specialize (Hd _ (list_lookup_middle _ _ _ _ eq_refl)).
  step_marker.
  all: intros ? E%lookup_last; subst; simpl; try done.
Qed.

Lemma update_present g0 p i g :
  MarkerInv g0 i g ->
  is_Some (Marker.marker i) ->
  exists ko, GM.markers (Marker.update p i g).2 = GM.markers g0 ++ [ko].
Proof.
  intros H Hk.
  destruct (update_keeps_marker g0 p i g H Hk) as [k' Hk'].
  destruct (MarkerInv_update g0 p i g H) as [_ _ _ Hi].
  destruct Hi as [(Hn & _) | (ko & Hko & _)]; [congruence | eauto].
Qed.

(** X7.  Once the marker is in the state of [Marker], a render with
    another map, another position object or another title takes the marker
    off the map: the first effect runs again, its cleanup calls
    [setMap(null)], and the effect builds nothing since there is a marker.
    Nothing puts the marker back: it stays off the map through every later
    render, whatever the props. *)
Theorem marker_lost_on_change_of_a_dependency g0 p0 ps p qs :
  is_Some (Marker.marker (marker_run g0 p0 ps).1) ->
  Marker.map p ≠ Marker.map (last_props p0 ps)
  \/ oid (Marker.position p) ≠ oid (Marker.position (last_props p0 ps))
  \/ Marker.title p ≠ Marker.title (last_props p0 ps) ->
  exists ko,
    GM.markers (marker_run g0 p0 (ps ++ p :: qs)).2 = GM.markers g0 ++ [ko]
    /\ GM.map ko = None.
Proof.
  intros Hk Hc.
  cut (detached g0 (marker_run g0 p0 (ps ++ p :: qs)).2).
  { intros Hd.
    assert (exists ko,
              GM.markers (marker_run g0 p0 (ps ++ p :: qs)).2
                = GM.markers g0 ++ [ko]) as [ko Hko].
    { destruct qs as [| q qs _] using rev_ind.
      - rewrite marker_run_snoc.
        by apply update_present; [apply marker_run_inv |].
      - rewrite app_comm_cons, app_assoc, marker_run_snoc.
        apply update_present; [apply marker_run_inv |].
        by apply run_keeps_marker. }
    exists ko. split; [done |]. apply Hd. rewrite Hko.
    by apply list_lookup_middle. }
  induction qs as [| q qs IH] using rev_ind.
  - rewrite marker_run_snoc.
    apply update_detaches; [apply marker_run_inv | done |].
    by rewrite marker_run_props.
  - rewrite app_comm_cons, app_assoc, marker_run_snoc.
    apply update_stays_detached; [apply marker_run_inv | | done].
    by apply run_keeps_marker.
Qed.

Lemma marker_lost_on_change_of_a_dependency_witness :
  exists ko,
    GM.markers
      (marker_run GM.empty (marker_at here)
         ([marker_at here]
          ++ marker_at there :: [marker_at there; marker_at here])).2
      = GM.markers GM.empty ++ [ko]
    /\ GM.map ko = None.
Proof.
  apply marker_lost_on_change_of_a_dependency.
  - by eexists.
  - right. left. simpl. lia.
Defined.

(** ** The page and the key *)




(** ** The warning banner *)

(** X10.  The warning banner is over the default location only.  In every
    map view that a widget shows: when [userLocation] holds a position
    there is no banner and the marker is titled "Your Current Location";
    when it holds none, [locationError] holds a message, the marker is at
    the default coordinates and titled "Default Location", and the banner
    shows the message, unless the message is the empty string, which is
    falsy: then the default location is shown without a banner. *)
Theorem warning_banner_only_over_default_location p geo w cn v :
  reachable p geo w ->
  rendered (widget w) = MapView cn v ->
  match userLocation (hooks (widget w)) with
  | Some c =>
      banner v = None
      /\ Tree.position (tree v) = c
      /\ Tree.title (tree v) = Some "Your Current Location"
  | None =>
      exists m,
        locationError (hooks (widget w)) = Some m
        /\ banner v = (if decide (m = "") then None else Some m)
        /\ lit (Tree.position (tree v)) = defaultCenter
        /\ Tree.title (tree v) = Some "Default Location"
  end.
Proof.
  intros Hr Hv.
  destruct (AppInv_reachable _ _ _ Hr) as [[a Ha] _].
  pose proof (gi_shape _ _ (GeoInv_reachable _ _ _ Hr)) as Hs.
  rewrite Hv in Ha. symmetry in Ha.
  destruct (GoogleMap_view _ _ _ _ _ Ha) as (Hl & _).
  rewrite (GoogleMap_settled _ _ _ Hl) in Ha. injection Ha as _ <-.
  destruct Hs as [Hs | (_ & [([c Hc] & He) | (Hc & [m He])])].
  - rewrite Hs in Hl. discriminate.
  - rewrite Hc, He. done.
  - rewrite Hc, He. exists m. simpl. split_and!; try done.
    destruct (decide (m = "")) as [-> | Hm]; [done |].
    destruct (String.eqb_spec m ""); done.
Qed.

Lemma warning_banner_only_over_default_location_witness :
  exists cn v,
    rendered (widget (deliver (onError denied) (start some_props true)))
      = MapView cn v
    /\ banner v = Some "User denied Geolocation"
    /\ Tree.title (tree v) = Some "Default Location".
Proof.
  set (w := deliver (onError denied) (start some_props true)).
  assert (Hr : reachable some_props true w).
  { apply rtc_once, step_error. rewrite start_supported. simpl. lia. }
  assert (Hv : exists cn v, rendered (widget w) = MapView cn v).
  { unfold w. rewrite start_supported, onError_alive by done.
    match goal with |- context [rerender ?w'] =>
      destruct (rerender_frame w') as (_ & _ & _ & _ & _ & _ & _ & F) end.
    rewrite F. simpl. rewrite GoogleMap_settled by done. by do 2 eexists. }
  destruct Hv as (cn & v & Hv). exists cn, v. split; [exact Hv |].
  pose proof (warning_banner_only_over_default_location
                some_props true w cn v Hr Hv) as H.
  assert (Hh : hooks (widget w)
               = {| userLocation := None;
                    locationError := Some "User denied Geolocation";
                    isLoadingLocation := false |}).
  { unfold w. rewrite start_supported, onError_alive by done.
    match goal with |- context [rerender ?w'] =>
      destruct (rerender_frame w') as (_ & _ & _ & _ & _ & F & _) end.
    by rewrite F. }
  rewrite Hh in H. simpl in H. destruct H as (m & [= <-] & Hb & _ & Ht).
  split; [exact Hb | exact Ht].
Defined.

(** ** An unmounted widget *)

Lemma dead_step geo w w' :
  GeoInv geo w -> AppInv w -> alive (widget w) = false -> step w w' ->
  widget w' = widget w /\ gmaps w' = gmaps w.
Proof.
  intros G [_ (_ & _ & _ & Hs)] Ha Hst.
  destruct Hst as [position w H | error w H | ok w H | w H | w H].
  - apply onSuccess_dead; [done | apply G].
  - apply onError_dead; [done | apply G].
  - destruct Hs as [(_ & Hw) | (cn & v & _ & Hs)]; [congruence |].
    destruct Hs as [(? & _) | (_ & Hw)]; congruence.
  - congruence.
  - congruence.
Qed.

(** X13.  An unmounted widget is inert.  Whatever happens after the
    unmount (an answer of the browser to the request still outstanding, the
    end of the load of the library), the state of the widget and every
    instance of the library stay as the unmount left them: no map and no
    marker is built, moved or attached. *)
Theorem unmounted_widget_is_inert p geo w w' :
  reachable p geo w ->
  alive (widget w) = false ->
  rtc step w w' ->
  widget w' = widget w /\ gmaps w' = gmaps w.
Proof.
  intros Hr Ha Hrun.
  cut (reachable p geo w' /\ widget w' = widget w /\ gmaps w' = gmaps w);
    [by intros (_ & ? & ?) |].
  revert w' Hrun.
  apply (rtc_ind_r (R := step)
           (fun w' => reachable p geo w'
                      /\ widget w' = widget w /\ gmaps w' = gmaps w) w);
    [done |].
  intros y z _ Hstep (Hy & Hw & Hg).
  split; [by eapply rtc_r |].
  destruct (dead_step geo y z) as [E1 E2];
    [by eapply GeoInv_reachable | by eapply AppInv_reachable
    | by rewrite Hw | done |].
  split; congruence.
Qed.

Lemma unmounted_widget_is_inert_witness :
  let w := unmount (start some_props true) in
  let w' := deliver (onSuccess position4074) w in
  widget w' = widget w /\ gmaps w' = gmaps w.
Proof.
  apply (unmounted_widget_is_inert some_props true).
  - apply rtc_once, step_unmount. reflexivity.
  - reflexivity.
  - apply rtc_once, step_position. simpl. lia.
Defined.
